(** * Distributed Python Programming: the executable examples of the book

    The repository is a tutorial book; its code is the example scripts of
    the chapters.  The ones with a behaviour of their own are embedded
    here:

    - the mpi4py examples of the chapter "point-to-point communication":
      the Master-Worker program (example 3), an SPMD program run by [size]
      processes, and the two-process examples 1 and 2;
    - the set-up cell of the Preprocessor chapter, over an abstract file
      system;
    - [train_func] of the Ray Train chapter, over an abstract training
      library, and the file names of its checkpoints.

    The Master-Worker program is embedded as an executable small-step
    machine: a world holds the control point of every rank and the messages
    in flight, and a schedule (a list of scheduling choices) drives it.
    Quantifying over schedules quantifies over all interleavings and over
    all matching orders of [recv(source=MPI.ANY_SOURCE)]. *)

From stdpp Require Import prelude strings pretty.
From Stdlib Require Import Ascii.


(** ** NumPy's global random generator

    [numpy.random] is an external library; the example uses three of its
    calls, all acting on the global generator state of the calling process.
    [seed n] is the state [np.random.seed(n)] installs (it replaces the
    previous state), [randint high] is [np.random.randint(high)] and
    [randint_size high n] is [np.random.randint(high, size=n)]; both draw
    from the state and advance it. *)
Class NumpyRandom := {
  rng : Type;
  seed : Z → rng;
  randint : Z → rng → Z * rng;
  randint_size : Z → Z → rng → list Z * rng;
}.

(** A small linear congruential generator, used to run the examples on
    concrete inputs.  It is a stand-in: NumPy's generator is MT19937. *)
Definition lcg_next (s : Z) : Z := ((1103515245 * s + 12345) `mod` 2147483648)%Z.

Definition lcg_randint (high : Z) (s : Z) : Z * Z :=
  let s' := lcg_next s in (((s' `div` 65536) `mod` high)%Z, s').

Fixpoint lcg_draws (high : Z) (n : nat) (s : Z) : list Z * Z :=
  match n with
  | O => ([], s)
  | S n' =>
      let '(x, s1) := lcg_randint high s in
      let '(xs, s2) := lcg_draws high n' s1 in
      (x :: xs, s2)
  end.

Definition lcg_random : NumpyRandom := {|
  rng := Z;
  seed := λ n, ((69069 * n + 1) `mod` 2147483648)%Z;
  randint := lcg_randint;
  randint_size := λ high n, lcg_draws high (Z.to_nat n);
|}.

(** ** The Master-Worker program *)

Section Model.
Context `{NumpyRandom}.

(** [np.random.seed(n)] as a state transformer: whatever the state was,
    it becomes [seed n].  Then the worker branch up to the send, as a
    computation on the generator state [g] of the process:
<<
  np.random.seed(rank)
  data_count = np.random.randint(100)
  data = np.random.randint(100, size=data_count)
>> *)
Definition np_random_seed (n : Z) (g : rng) : unit * rng := (tt, seed n).

Definition worker_generate (rank : nat) (g : rng) : list Z * rng :=
  let '(_, g1) := np_random_seed (Z.of_nat rank) g in
  let '(data_count, g2) := randint 100 g1 in
  let '(data, g3) := randint_size 100 data_count g2 in
  (data, g3).

(** [comm.send(data, dest=size - 1)] issued by rank [msg_source]. *)
Record message := Msg {
  msg_source : nat;
  msg_dest : nat;
  msg_data : list Z;
}.

(** The two [print] calls; [count] is [len(data)]. *)
Inductive line :=
| WorkerLine (worker_id : nat) (count : nat)
| MasterLine (worker_id : nat) (count : nat).

(** Control points of one process. *)
Inductive pc :=
| Start (g : rng)
    (* before [if rank < size - 1], generator state [g] *)
| WorkerSend (data : list Z)
    (* before [comm.send(data, dest=size - 1)] *)
| WorkerPrint (data : list Z)
    (* before the worker's [print] *)
| MasterRecv (i : nat)
    (* head of [for i in range(size - 1)], [i] iterations done *)
| MasterPrint (i : nat) (m : message)
    (* [comm.recv] returned [m]; before the master's [print] *)
| Barrier
    (* inside [comm.Barrier()] *)
| Finished.

Inductive event :=
| EvBranch (rank : nat)
| EvSend (m : message)
| EvRecv (rank : nat) (m : message)
| EvPrint (rank : nat) (l : line)
| EvLoopExit (rank : nat)
| EvLeaveBarrier (rank : nat).

Record world := World {
  procs : list pc;
  net : list message;
}.

Definition in_barrier (p : pc) : bool :=
  match p with Barrier | Finished => true | _ => false end.

Definition is_finished (p : pc) : bool :=
  match p with Finished => true | _ => false end.

Definition goto (w : world) (rank : nat) (p : pc) : world :=
  World (<[rank := p]> (procs w)) (net w).

(** One step of process [rank].  [k] is used by [recv] only: the position
    in [net] of the message matched by [source=MPI.ANY_SOURCE].  [None]
    means that the process cannot move: it does not exist, it has ended,
    it waits in [recv] for a message that position [k] does not offer, or
    it waits in the barrier for the other ranks.

    mpi4py is an external library; its calls are given their MPI meaning.
    [comm.send] hands the pickled object to the library and returns; a
    library that makes the sender wait for the matching [recv] only delays
    the sender's next step, which the schedules below already allow.
    [comm.recv(source=MPI.ANY_SOURCE)] returns one message addressed to the
    caller, whichever is matched, and blocks while there is none; the
    object received is the object sent.  [comm.Barrier()] lets a process
    through once every process of the communicator has entered it. *)
Definition step (size : nat) (w : world) (rank k : nat) : option (event * world) :=
  match procs w !! rank with
  | None => None
  | Some (Start g) =>
      if (rank <? size - 1)
      then Some (EvBranch rank, goto w rank (WorkerSend (worker_generate rank g).1))
      else Some (EvBranch rank, goto w rank (MasterRecv 0))
  | Some (WorkerSend data) =>
      let m := Msg rank (size - 1) data in
      Some (EvSend m, World (<[rank := WorkerPrint data]> (procs w)) (net w ++ [m]))
  | Some (WorkerPrint data) =>
      Some (EvPrint rank (WorkerLine rank (length data)), goto w rank Barrier)
  | Some (MasterRecv i) =>
      if (i <? size - 1)
      then match net w !! k with
           | Some m =>
               if decide (msg_dest m = rank)
               then Some (EvRecv rank m,
                          World (<[rank := MasterPrint i m]> (procs w)) (delete k (net w)))
               else None
           | None => None
           end
      else Some (EvLoopExit rank, goto w rank Barrier)
  | Some (MasterPrint i m) =>
      Some (EvPrint rank (MasterLine (msg_source m) (length (msg_data m))),
            goto w rank (MasterRecv (S i)))
  | Some Barrier =>
      if forallb in_barrier (procs w)
      then Some (EvLeaveBarrier rank, goto w rank Finished)
      else None
  | Some Finished => None
  end.

(** Running a schedule; the result is the trace and the world reached,
    or [None] when some choice of the schedule was not enabled. *)
Fixpoint exec (size : nat) (w : world) (sched : list (nat * nat))
    : option (list event * world) :=
  match sched with
  | [] => Some ([], w)
  | (rank, k) :: sched' =>
      match step size w rank k with
      | None => None
      | Some (e, w') =>
          match exec size w' sched' with
          | None => None
          | Some (t, w'') => Some (e :: t, w'')
          end
      end
  end.

(** [mpirun -np size]: every rank at the start of the script, with the
    generator state [g0 rank] the process happens to start with. *)
Definition init (size : nat) (g0 : nat → rng) : world :=
  World ((λ r, Start (g0 r)) <$> seq 0 size) [].

Definition finished (w : world) : bool := forallb is_finished (procs w).

(** Observations on a trace. *)
Definition sends (t : list event) : list message :=
  omap (λ e, match e with EvSend m => Some m | _ => None end) t.

Definition recvs (t : list event) : list message :=
  omap (λ e, match e with EvRecv _ m => Some m | _ => None end) t.

Definition sends_from (r : nat) (t : list event) : list message :=
  filter (λ m, msg_source m = r) (sends t).

(** The lines process [r] has printed, in order. *)
Definition printed (r : nat) (t : list event) : list line :=
  omap (λ e, match e with
             | EvPrint r' l => if decide (r' = r) then Some l else None
             | _ => None
             end) t.

(** What the master prints for a message it received. *)
Definition report (m : message) : line :=
  MasterLine (msg_source m) (length (msg_data m)).

(** The array worker [r] generates, read off the generator seeded with
    [r]: a count below 100, then that many draws below 100. *)
Definition worker_data (r : nat) : list Z :=
  let '(data_count, g) := randint 100 (seed (Z.of_nat r)) in
  (randint_size 100 data_count g).1.

Definition worker_message (size r : nat) : message :=
  Msg r (size - 1) (worker_data r).

(** An upper bound on the steps a process can still take. *)
Definition fuel (size : nat) (p : pc) : nat :=
  match p with
  | Start _ => 2 * size + 4
  | WorkerSend _ => 3
  | WorkerPrint _ => 2
  | MasterRecv i => 2 * (size - 1 - i) + 2
  | MasterPrint i _ => 2 * (size - 1 - S i) + 3
  | Barrier => 1
  | Finished => 0
  end.

Definition total_fuel (size : nat) (w : world) : nat :=
  sum_list_with (fuel size) (procs w).

(** A process that can move whatever the others do. *)
Definition runnable (p : pc) : bool :=
  match p with
  | Start _ | WorkerSend _ | WorkerPrint _ | MasterPrint _ _ => true
  | _ => false
  end.

(** The invariant of the runs.  A worker [r] is described by the messages
    it has sent and the lines it has printed so far, the master by the
    messages received and the lines printed. *)
Definition worker_ok (size r : nat) (sent : list message) (out : list line)
    (p : pc) : Prop :=
  match p with
  | Start _ => sent = [] ∧ out = []
  | WorkerSend d => d = worker_data r ∧ sent = [] ∧ out = []
  | WorkerPrint d =>
      d = worker_data r ∧ sent = [worker_message size r] ∧ out = []
  | Barrier | Finished =>
      sent = [worker_message size r] ∧
      out = [WorkerLine r (length (worker_data r))]
  | MasterRecv _ | MasterPrint _ _ => False
  end.

Definition master_ok (size : nat) (rcvd : list message) (out : list line)
    (p : pc) : Prop :=
  match p with
  | Start _ => rcvd = [] ∧ out = []
  | MasterRecv i => i ≤ size - 1 ∧ length rcvd = i ∧ out = report <$> rcvd
  | MasterPrint i m =>
      i < size - 1 ∧
      ∃ pre, length pre = i ∧ rcvd = pre ++ [m] ∧ out = report <$> pre
  | Barrier | Finished => length rcvd = size - 1 ∧ out = report <$> rcvd
  | WorkerSend _ | WorkerPrint _ => False
  end.

Record inv (size : nat) (t : list event) (w : world) : Prop := {
  inv_length : length (procs w) = size;
  inv_workers : ∀ r p, r < size - 1 → procs w !! r = Some p →
    worker_ok size r (sends_from r t) (printed r t) p;
  inv_master : ∀ p, procs w !! (size - 1) = Some p →
    master_ok size (recvs t) (printed (size - 1) t) p;
  inv_sends : ∀ m, m ∈ sends t →
    msg_source m < size - 1 ∧ m = worker_message size (msg_source m);
  inv_nodup : NoDup (msg_source <$> sends t);
  inv_net : sends t ≡ₚ recvs t ++ net w;
}.

(** "The whole exchange is over before the receiver uses any of it": in
    trace [t], every line the master prints comes after all [size - 1]
    sends. *)
Definition exchange_before_use (size : nat) (t : list event) : Prop :=
  ∀ pre l post, t = pre ++ EvPrint (size - 1) l :: post →
    length (sends pre) = size - 1.
End Model.

(** ** Concrete runs

    Initial generator states of two different launches, and schedules for
    [lcg_random]: two interleavings of a complete run with two processes, a
    complete run with three processes in which the master matches the
    message of rank 1 before that of rank 0, and the beginning of a run
    with three processes in which rank 1 has not moved yet. *)
Definition entropy_a : nat → @rng lcg_random := λ r, (2024 + Z.of_nat r)%Z.

Definition entropy_b : nat → @rng lcg_random := λ r, (7 * Z.of_nat r + 1)%Z.

Definition sched_complete_2 : list (nat * nat) :=
  [(0, 0); (0, 0); (0, 0); (1, 0); (1, 0); (1, 0); (1, 0); (1, 0); (0, 0)].

Definition sched_interleaved_2 : list (nat * nat) :=
  [(1, 0); (0, 0); (0, 0); (1, 0); (0, 0); (1, 0); (1, 0); (0, 0); (1, 0)].

Definition sched_complete_3 : list (nat * nat) :=
  [(0, 0); (0, 0); (1, 0); (1, 0); (2, 0); (2, 1); (2, 0); (2, 0); (2, 0);
   (2, 0); (0, 0); (1, 0); (2, 0); (0, 0); (1, 0)].

Definition sched_early_report_3 : list (nat * nat) :=
  [(0, 0); (0, 0); (2, 0); (2, 0); (2, 0)].

(** The trace and the world [sched_early_report_3] leads to. *)
Definition early_report_trace : list event :=
  [EvBranch 0;
   EvSend (Msg 0 2 (worker_data (H:=lcg_random) 0));
   EvBranch 2;
   EvRecv 2 (Msg 0 2 (worker_data (H:=lcg_random) 0));
   EvPrint 2 (MasterLine 0 (length (worker_data (H:=lcg_random) 0)))].

Definition early_report_world : @world lcg_random :=
  World [WorkerPrint (worker_data (H:=lcg_random) 0); Start (entropy_a 1);
         MasterRecv 1] [].

(** ** Measures and orders of the Master-Worker program *)

Section Measures.
Context `{NumpyRandom}.

(** The number of steps the process of rank [r] still takes from control
    point [p]: a worker branches, sends, prints and leaves the barrier; the
    master branches, receives and prints [size - 1] times, leaves the loop
    and leaves the barrier. *)
Definition steps_left (size r : nat) (p : pc) : nat :=
  match p with
  | Start _ => if r <? size - 1 then 4 else 2 * (size - 1) + 3
  | WorkerSend _ => 3
  | WorkerPrint _ => 2
  | MasterRecv i => 2 * (size - 1 - i) + 2
  | MasterPrint i _ => 2 * (size - 1 - i) + 1
  | Barrier => 1
  | Finished => 0
  end.

Definition total_steps_left (size : nat) (w : world) : nat :=
  sum_list (imap (steps_left size) (procs w)).

(** The worker ids in the master's lines, in the order printed. *)
Definition reported_workers (size : nat) (t : list event) : list nat :=
  omap (λ l, match l with MasterLine r _ => Some r | WorkerLine _ _ => None end)
       (printed (size - 1) t).
End Measures.

(** ** The two-process examples of point-to-point communication

    Example 1 sends a Python object from rank 0 to rank 1 with the
    pickle-based [comm.send] / [comm.recv]; example 2 sends two NumPy
    arrays with the buffer-based [comm.Send] / [comm.Recv], first ten C
    ints, then ten doubles.  Both are SPMD scripts: every rank runs the
    same file and picks its branch by [rank]; ranks above 1 have nothing to
    do.  A script is embedded as the list of calls each rank makes, and an
    interpreter runs these lists under a schedule. *)

Inductive dtype := Int32 | Float64.

#[global] Instance dtype_eq_dec : EqDecision dtype.
Proof. solve_decision. Defined.

(** The values the scripts handle.  A float is carried, never computed on:
    it is kept as its literal.  The elements of an array are integers also
    for [Float64], the value [k] standing for the double [k.0]. *)
Inductive atom := AInt (n : Z) | AFloat (literal : string).

Inductive pyobj :=
| Dict (items : list (string * atom))
| Ndarray (dt : dtype) (elems : list Z).

(** [np.arange(10, dtype=dt)]. *)
Definition arange10 (dt : dtype) : pyobj := Ndarray dt (seqZ 0 10).

(** [np.empty(10, dtype=dt)]: ten elements of whatever the memory holds,
    [junk i] at index [i]. *)
Definition empty10 (dt : dtype) (junk : nat → Z) : pyobj :=
  Ndarray dt (junk <$> seq 0 10).

(** What travels: a pickled object ([send]) or the elements of a buffer
    with their MPI datatype ([Send]). *)
Inductive payload :=
| Pickled (o : pyobj)
| Raw (dt : dtype) (elems : list Z).

Record envelope := Envelope {
  env_source : nat;
  env_dest : nat;
  env_payload : payload;
}.

(** The calls of the scripts.  In [comm.Send([data, MPI.INT], dest=1)] the
    datatype given is the one of the array, as it is the one found by
    [comm.Send(data, dest=1)]: both are [SendBuf]. *)
Inductive instr :=
| Assign (v : pyobj)            (* data = ... *)
| SendObj (dest : nat)          (* comm.send(data, dest=dest) *)
| RecvObj (source : nat)        (* data = comm.recv(source=source) *)
| SendBuf (dest : nat)          (* comm.Send(data, dest=dest) *)
| RecvBuf (source : nat)        (* comm.Recv(data, source=source) *)
| PrintSended                   (* print(f"Sended: {data}, from rank: {rank}.") *)
| PrintReceived.                (* print(f"Received: {data}, to rank: {rank}.") *)

Inductive p2p_line :=
| Sended (data : pyobj) (rank : nat)
| Received (data : pyobj) (rank : nat).

(** The ways a call can fail: [data] not bound, a rank outside the
    communicator, an object that is not a buffer, a message that the
    receive cannot take (a pickle for a buffer receive or the reverse, a
    datatype other than the buffer's, more elements than the buffer
    holds). *)
Inductive failure := NameError | InvalidRank | NotABuffer | Mismatch | Truncated.

Inductive pstate :=
| Running (todo : list instr) (data : option pyobj)
| Failed (why : failure).

Inductive p2p_event :=
| EAssign (rank : nat)
| ESend (m : envelope)
| ERecv (m : envelope)
| EPrint (rank : nat) (l : p2p_line)
| ERaise (rank : nat) (why : failure).

Record p2p_world := P2P {
  p2p_procs : list pstate;
  p2p_net : list envelope;
}.

Definition p2p_set (w : p2p_world) (rank : nat) (p : pstate) : p2p_world :=
  P2P (<[rank := p]> (p2p_procs w)) (p2p_net w).

Definition p2p_raise (w : p2p_world) (rank : nat) (why : failure)
    : option (p2p_event * p2p_world) :=
  Some (ERaise rank why, p2p_set w rank (Failed why)).

(** A blocking send of [body] from [rank] to [dest]. *)
Definition p2p_send (size : nat) (w : p2p_world) (rank dest : nat)
    (body : payload) (next : pstate) : option (p2p_event * p2p_world) :=
  if dest <? size
  then let m := Envelope rank dest body in
       Some (ESend m, P2P (<[rank := next]> (p2p_procs w)) (p2p_net w ++ [m]))
  else p2p_raise w rank InvalidRank.

(** The message a receive from [source] matches: the earliest one in
    flight from [source] to [rank] (messages between two ranks do not
    overtake each other). *)
Definition p2p_match (w : p2p_world) (rank source : nat) : option (nat * envelope) :=
  list_find (λ m, env_source m = source ∧ env_dest m = rank) (p2p_net w).

(** One call of process [rank].  [None]: the process does not exist, has
    ended or failed, or waits in a receive. *)
Definition p2p_step (size : nat) (w : p2p_world) (rank : nat)
    : option (p2p_event * p2p_world) :=
  match p2p_procs w !! rank with
  | Some (Running (i :: todo) data) =>
      match i, data with
      | Assign v, _ => Some (EAssign rank, p2p_set w rank (Running todo (Some v)))
      | SendObj dest, Some d =>
          p2p_send size w rank dest (Pickled d) (Running todo data)
      | SendBuf dest, Some (Ndarray dt elems) =>
          p2p_send size w rank dest (Raw dt elems) (Running todo data)
      | SendBuf _, Some (Dict _) => p2p_raise w rank NotABuffer
      | RecvObj source, _ =>
          if source <? size
          then match p2p_match w rank source with
               | Some (k, Envelope s d (Pickled o)) =>
                   Some (ERecv (Envelope s d (Pickled o)),
                         P2P (<[rank := Running todo (Some o)]> (p2p_procs w))
                             (delete k (p2p_net w)))
               | Some (_, Envelope _ _ (Raw _ _)) => p2p_raise w rank Mismatch
               | None => None
               end
          else p2p_raise w rank InvalidRank
      | RecvBuf source, Some (Ndarray dt buf) =>
          if source <? size
          then match p2p_match w rank source with
               | Some (k, Envelope s d (Raw dt' elems)) =>
                   if decide (dt' = dt)
                   then if length elems <=? length buf
                        then Some (ERecv (Envelope s d (Raw dt' elems)),
                                   P2P (<[rank := Running todo
                                           (Some (Ndarray dt
                                              (elems ++ drop (length elems) buf)))]>
                                          (p2p_procs w))
                                       (delete k (p2p_net w)))
                        else p2p_raise w rank Truncated
                   else p2p_raise w rank Mismatch
               | Some (_, Envelope _ _ (Pickled _)) => p2p_raise w rank Mismatch
               | None => None
               end
          else p2p_raise w rank InvalidRank
      | RecvBuf _, Some (Dict _) => p2p_raise w rank NotABuffer
      | PrintSended, Some d =>
          Some (EPrint rank (Sended d rank), p2p_set w rank (Running todo data))
      | PrintReceived, Some d =>
          Some (EPrint rank (Received d rank), p2p_set w rank (Running todo data))
      | (SendObj _ | SendBuf _ | RecvBuf _ | PrintSended | PrintReceived), None =>
          p2p_raise w rank NameError
      end
  | _ => None
  end.

Fixpoint p2p_exec (size : nat) (w : p2p_world) (sched : list nat)
    : option (list p2p_event * p2p_world) :=
  match sched with
  | [] => Some ([], w)
  | rank :: sched' =>
      match p2p_step size w rank with
      | None => None
      | Some (e, w') =>
          match p2p_exec size w' sched' with
          | None => None
          | Some (t, w'') => Some (e :: t, w'')
          end
      end
  end.

(** [mpirun -np size python script.py]. *)
Definition p2p_init (script : nat → list instr) (size : nat) : p2p_world :=
  P2P ((λ r, Running (script r) None) <$> seq 0 size) [].

(** Every process has run its script to the end. *)
Definition p2p_done (w : p2p_world) : bool :=
  forallb (λ p, match p with Running [] _ => true | _ => false end) (p2p_procs w).

Definition p2p_failed (w : p2p_world) : bool :=
  existsb (λ p, match p with Failed _ => true | _ => false end) (p2p_procs w).

Definition p2p_printed (r : nat) (t : list p2p_event) : list p2p_line :=
  omap (λ e, match e with
             | EPrint r' l => if decide (r' = r) then Some l else None
             | _ => None
             end) t.

(** Example 1:
<<
  if rank == 0:
      data = {'a': 7, 'b': 3.14}
      comm.send(data, dest=1)
      print(f"Sended: {data}, from rank: {rank}.")
  elif rank == 1:
      data = comm.recv(source=0)
      print(f"Received: {data}, to rank: {rank}.")
>> *)
Definition the_dict : pyobj := Dict [("a", AInt 7); ("b", AFloat "3.14")].

Definition send_py_object (rank : nat) : list instr :=
  if rank =? 0 then [Assign the_dict; SendObj 1; PrintSended]
  else if rank =? 1 then [RecvObj 0; PrintReceived]
  else [].

(** Example 2: the same [if rank == 0: ... elif rank == 1: ...] twice, with
    [data = np.arange(10, dtype='i')] resp. [np.arange(10, dtype=np.float64)]
    sent by rank 0 and received by rank 1 into [np.empty(10, dtype=...)]. *)
Definition send_np_array (junk_i junk_f : nat → Z) (rank : nat) : list instr :=
  (if rank =? 0 then [Assign (arange10 Int32); SendBuf 1; PrintSended]
   else if rank =? 1 then [Assign (empty10 Int32 junk_i); RecvBuf 0; PrintReceived]
   else [])
  ++
  (if rank =? 0 then [Assign (arange10 Float64); SendBuf 1; PrintSended]
   else if rank =? 1 then [Assign (empty10 Float64 junk_f); RecvBuf 0; PrintReceived]
   else []).

(** The invariant of example 2.  Rank 0 has made [n0] of its six calls
    and rank 1 [n1] of its six; this fixes their states, what is in flight
    and what has been printed. *)
Definition np_messages : list envelope :=
  [Envelope 0 1 (Raw Int32 (seqZ 0 10)); Envelope 0 1 (Raw Float64 (seqZ 0 10))].

Definition np_lines (mk : pyobj → nat → p2p_line) (rank : nat) : list p2p_line :=
  [mk (arange10 Int32) rank; mk (arange10 Float64) rank].

Definition np_sender (junk_i junk_f : nat → Z) (n : nat) : pstate :=
  Running (drop n (send_np_array junk_i junk_f 0))
    (match n with
     | 0 => None
     | 1 | 2 | 3 => Some (arange10 Int32)
     | _ => Some (arange10 Float64)
     end).

Definition np_receiver (junk_i junk_f : nat → Z) (n : nat) : pstate :=
  Running (drop n (send_np_array junk_i junk_f 1))
    (match n with
     | 0 => None
     | 1 => Some (empty10 Int32 junk_i)
     | 2 | 3 => Some (arange10 Int32)
     | 4 => Some (empty10 Float64 junk_f)
     | _ => Some (arange10 Float64)
     end).

(** Messages passed (sent by rank 0, received by rank 1) and lines printed
    after [n] calls: the second call of each half passes a message, the
    third prints. *)
Definition np_passed (n : nat) : nat :=
  if n <? 2 then 0 else if n <? 5 then 1 else 2.

Definition np_shown (n : nat) : nat :=
  if n <? 3 then 0 else if n <? 6 then 1 else 2.

Definition np_inv (junk_i junk_f : nat → Z) (size : nat)
    (t : list p2p_event) (w : p2p_world) : Prop :=
  ∃ n0 n1,
    n0 ≤ 6 ∧ n1 ≤ 6 ∧ np_passed n1 ≤ np_passed n0 ∧
    w = P2P (np_sender junk_i junk_f n0 :: np_receiver junk_i junk_f n1 ::
             replicate (size - 2) (Running [] None))
            (drop (np_passed n1) (take (np_passed n0) np_messages)) ∧
    length t = n0 + n1 ∧
    p2p_printed 0 t = take (np_shown n0) (np_lines Sended 0) ∧
    p2p_printed 1 t = take (np_shown n1) (np_lines Received 1) ∧
    ∀ r, 2 ≤ r → p2p_printed r t = [].

(** The invariant of example 1, in the same way: three calls for rank 0,
    two for rank 1. *)
Definition obj_sender (n : nat) : pstate :=
  Running (drop n (send_py_object 0))
    (match n with 0 => None | _ => Some the_dict end).

Definition obj_receiver (n : nat) : pstate :=
  Running (drop n (send_py_object 1))
    (match n with 0 => None | _ => Some the_dict end).

Definition obj_inv (size : nat) (t : list p2p_event) (w : p2p_world) : Prop :=
  ∃ n0 n1,
    n0 ≤ 3 ∧ n1 ≤ 2 ∧ (1 ≤ n1 → 2 ≤ n0) ∧
    w = P2P (obj_sender n0 :: obj_receiver n1 ::
             replicate (size - 2) (Running [] None))
            (if (2 <=? n0) && (n1 =? 0)
             then [Envelope 0 1 (Pickled the_dict)] else []) ∧
    length t = n0 + n1 ∧
    p2p_printed 0 t = (if 3 <=? n0 then [Sended the_dict 0] else []) ∧
    p2p_printed 1 t = (if 2 <=? n1 then [Received the_dict 1] else []) ∧
    ∀ r, 2 ≤ r → p2p_printed r t = [].

(** What [np.empty] finds in memory in the runs used as examples. *)
Definition junk_a : nat → Z := λ i, (100 + Z.of_nat i)%Z.

Definition junk_b : nat → Z := λ i, (-7 * Z.of_nat i)%Z.

(** ** The set-up cell of the Preprocessor chapter

    The cell restarts Ray and downloads one Parquet file into
    [../data/nyc-taxi] unless that folder exists. *)

(** [s.split("/")[-1]]: what follows the last slash. *)
Fixpoint last_segment_from (acc s : string) : string :=
  match s with
  | EmptyString => acc
  | String c s' =>
      if Ascii.eqb c "/"%char then last_segment_from "" s'
      else last_segment_from (acc +:+ String c "") s'
  end.

Definition last_segment (s : string) : string := last_segment_from "" s.

Fixpoint ends_with_slash (s : string) : bool :=
  match s with
  | EmptyString => false
  | String c EmptyString => Ascii.eqb c "/"%char
  | String _ s' => ends_with_slash s'
  end.

Definition starts_with_slash (s : string) : bool :=
  match s with
  | String c _ => Ascii.eqb c "/"%char
  | EmptyString => false
  end.

(** [os.path.join(a, b)] on POSIX. *)
Definition path_join (a b : string) : string :=
  if starts_with_slash b then b
  else if String.eqb a "" || ends_with_slash a then a +:+ b
  else a +:+ "/" +:+ b.

Definition download_url : string :=
  "https://d37ci6vzurychx.cloudfront.net/trip-data/yellow_tripdata_2023-06.parquet".

(** What [urlopen] and the copy can do: fail before anything is read, break
    after a part of the body has been written, or deliver the body. *)
Inductive response :=
| Unreachable
| Interrupted (part : string)
| Complete (body : string).

(** The file system calls the cell makes.  [os.makedirs] and [open] can
    raise [OSError] (a dangling link or a file in the way, a parent that
    cannot be written), which is [None] here; the disk is then as before.
    [write_file q c] is [open(q, 'wb')] followed by the writes that leave
    [c] in the file.  [read_file] is what reading the file would give.
    The facts used: a folder that was made exists, writing a file removes
    no path, a file that was written holds what was written, making a
    folder where no path was changes no file. *)
Class FileSystem := {
  disk : Type;
  path_exists : string → disk → bool;
  makedirs : string → disk → option disk;
  write_file : string → string → disk → option disk;
  read_file : string → disk → option string;
  exists_makedirs : ∀ p d d', makedirs p d = Some d' → path_exists p d' = true;
  exists_write_file : ∀ p q c d d',
    write_file q c d = Some d' → path_exists p d = true → path_exists p d' = true;
  read_write_file : ∀ q c d d',
    write_file q c d = Some d' → read_file q d' = Some c;
  read_makedirs : ∀ p q d d',
    path_exists p d = false → makedirs p d = Some d' →
    read_file q d' = read_file q d;
}.

(** A file system for examples.  At a path there is nothing, a folder, a
    file with its contents, or a link whose target is missing: such a link
    does not exist for [os.path.exists] and is in the way of
    [os.makedirs]. *)
Inductive toy_node := Folder | File (contents : string) | DanglingLink.

Definition toy_disk : Type := string → option toy_node.

Definition toy_exists (p : string) (d : toy_disk) : bool :=
  match d p with
  | Some Folder | Some (File _) => true
  | Some DanglingLink | None => false
  end.

Definition toy_makedirs (p : string) (d : toy_disk) : option toy_disk :=
  match d p with
  | None => Some (λ q, if decide (q = p) then Some Folder else d q)
  | Some _ => None
  end.

Definition toy_write_file (q c : string) (d : toy_disk) : option toy_disk :=
  match d q with
  | None | Some (File _) =>
      Some (λ p, if decide (p = q) then Some (File c) else d p)
  | Some Folder | Some DanglingLink => None
  end.

Definition toy_read_file (q : string) (d : toy_disk) : option string :=
  match d q with
  | Some (File c) => Some c
  | _ => None
  end.

Program Definition toy_fs : FileSystem := {|
  disk := toy_disk;
  path_exists := toy_exists;
  makedirs := toy_makedirs;
  write_file := toy_write_file;
  read_file := toy_read_file;
|}.
Next Obligation.
  intros p d d'. unfold toy_makedirs, toy_exists.
  destruct (d p); intros [= <-]. by rewrite decide_True.
Qed.
Next Obligation.
  intros p q c d d'. unfold toy_write_file, toy_exists.
  destruct (d q) as [[]|]; intros [= <-]; by case_decide.
Qed.
Next Obligation.
  intros q c d d'. unfold toy_write_file, toy_read_file.
  destruct (d q) as [[]|]; intros [= <-]; by rewrite decide_True.
Qed.
Next Obligation.
  intros p q d d'. unfold toy_makedirs, toy_exists, toy_read_file.
  destruct (d p) eqn:Hp; intros _ [= <-].
  case_decide as Hq; [|done]. subst q. by rewrite Hp.
Qed.

Definition empty_disk : @disk toy_fs := λ _, None.

(** A disk where a link without target is in the place of the folder. *)
Definition linked_disk : @disk toy_fs :=
  λ p, if decide (p = "/home/u/../data/nyc-taxi") then Some DanglingLink
       else None.

Section SetupCell.
Context `{FileSystem}.

Record machine := Machine {
  ray_running : bool;
  files : disk;
}.

(** What the surroundings do during one run of the cell: whether
    [ray.init()] returns or raises, and how the download goes. *)
Record run_env := RunEnv {
  ray_starts : bool;
  fetch : string → response;
}.

(** The calls to Ray and to the network and the lines printed. *)
Inductive cell_event :=
| RayShutdown
| RayInit
| PrintCreated (folder : string)
| UrlOpen (url : string)
| PrintDownloaded
| PrintExists (folder : string).

(** The exceptions that end a run: of [ray.init()] (called while Ray is
    running, or failing to start), of [os.makedirs], of [urlopen], of
    [open], and of [shutil.copyfileobj] when the copy breaks. *)
Inductive cell_error :=
| RayAlreadyRunning
| RayInitError
| MakedirsError
| URLError
| OpenError
| CopyError.

(** [if ray.is_initialized:] tests the function object, not the result of
    a call; a function object is true. *)
Definition ray_is_initialized_object : bool := true.

(** The cell, for the working directory [cwd] and the surroundings [env]
    of this run: the events in order, the machine it leaves, and the
    exception that ends it, if any. *)
Definition setup_cell (cwd : string) (env : run_env) (m : machine)
    : list cell_event * machine * option cell_error :=
  let '(ev0, up) :=
    if ray_is_initialized_object then ([RayShutdown], false)
    else ([], ray_running m) in
  let ev1 := ev0 ++ [RayInit] in
  if up then (ev1, Machine up (files m), Some RayAlreadyRunning)
  else if negb (ray_starts env)
  then (ev1, Machine false (files m), Some RayInitError)
  else
    let folder_path := path_join cwd "../data/nyc-taxi" in
    let file_name := last_segment download_url in
    let parquet_file_path := path_join folder_path file_name in
    if negb (path_exists folder_path (files m))
    then
      match makedirs folder_path (files m) with
      | None => (ev1, Machine true (files m), Some MakedirsError)
      | Some d1 =>
          let ev2 := ev1 ++ [PrintCreated folder_path; UrlOpen download_url] in
          match fetch env download_url with
          | Unreachable => (ev2, Machine true d1, Some URLError)
          | Interrupted part =>
              match write_file parquet_file_path part d1 with
              | None => (ev2, Machine true d1, Some OpenError)
              | Some d2 => (ev2, Machine true d2, Some CopyError)
              end
          | Complete body =>
              match write_file parquet_file_path body d1 with
              | None => (ev2, Machine true d1, Some OpenError)
              | Some d2 => (ev2 ++ [PrintDownloaded], Machine true d2, None)
              end
          end
      end
    else (ev1 ++ [PrintExists folder_path], Machine true (files m), None).

Definition folder_of (cwd : string) : string := path_join cwd "../data/nyc-taxi".

Definition parquet_of (cwd : string) : string :=
  path_join (folder_of cwd) (last_segment download_url).

(** Running the cell again and again, each time in the surroundings as
    they are then: what each run did and raised, and the machine in the
    end. *)
Fixpoint reruns (cwd : string) (envs : list run_env) (m : machine)
    : list (list cell_event * option cell_error) * machine :=
  match envs with
  | [] => ([], m)
  | env :: envs' =>
      let '(ev, m1, err) := setup_cell cwd env m in
      let '(rest, m2) := reruns cwd envs' m1 in
      ((ev, err) :: rest, m2)
  end.
End SetupCell.

(** ** The training function of the Ray Train chapter

    [train_func] is run by every Ray Train worker.  PyTorch, torchvision and
    Ray are external; what [train_func] does with them is kept: ten epochs,
    in each one pass over the prepared data loader with one optimisation
    step per batch, then a report of the metrics with a checkpoint, and a
    [print] on the worker of world rank 0.  The exceptions of the
    function's own statements are kept; a device, network or disk failure
    inside a library call is not part of the model. *)
Class Training := {
  params : Type;        (* the prepared model with the state of its optimiser *)
  batch : Type;         (* a pair [(images, labels)] *)
  loss_value : Type;    (* a loss, as by [loss.item()] *)
  checkpoint : Type;    (* the directory passed to [ray.train.report] *)
  data_loader : Type;   (* the prepared loader, its sampler and shuffling state *)
  (* outputs = model(images); loss = criterion(outputs, labels);
     optimizer.zero_grad(); loss.backward(); optimizer.step() *)
  train_step : params → batch → loss_value * params;
  (* train_loader.sampler.set_epoch(epoch) *)
  set_epoch : nat → data_loader → data_loader;
  (* one [for images, labels in train_loader], batches in order *)
  one_pass : data_loader → list batch * data_loader;
  (* torch.save(<module>.state_dict(), ...) and Checkpoint.from_directory *)
  save_checkpoint : params → checkpoint;
}.

(** A training with numbers, to run the function on: the parameters count
    the steps made, a batch is a number, the loss of a step is the batch
    plus the number of steps made before, the loader holds the passes still
    to come and [set_epoch] leaves it alone. *)
Definition toy_training : Training := {|
  params := nat;
  batch := nat;
  loss_value := nat;
  checkpoint := nat;
  data_loader := list (list nat);
  train_step := λ p b, (b + p, S p);
  set_epoch := λ _ ld, ld;
  one_pass := λ ld, (hd [] ld, tl ld);
  save_checkpoint := λ p, p;
|}.

Section TrainFunc.
Context `{Training}.

(** [metrics = {"loss": loss.item(), "epoch": epoch}]. *)
Record metrics := Metrics {
  m_loss : loss_value;
  m_epoch : nat;
}.

(** What a worker does, in order: an optimisation step on a batch, a call
    of [ray.train.report], a [print]. *)
Inductive train_event :=
| Trained (b : batch)
| Reported (m : metrics) (c : checkpoint)
| Printed (m : metrics).

(** The state of one worker inside [train_func]: the variables [model]
    (with [optimizer]), [train_loader] and [loss], which is unbound until
    the first batch has been processed, and what the worker has done so
    far. *)
Record train_state := TrainState {
  model : params;
  train_loader : data_loader;
  loss : option loss_value;
  log : list train_event;
}.

(** The exceptions of [train_func]'s own statements: [loss.item()] when
    [loss] has never been assigned, [model.module] when [model] has no
    such attribute. *)
Inductive train_error := UnboundLocalError | AttributeError.

(** [model.module].  [ray.train.torch.prepare_model] wraps the model in
    [DistributedDataParallel] when the world size is above 1, and the
    wrapper's [module] is the model; with a single worker it returns the
    model as it is, and a [resnet18] has no attribute [module]. *)
Definition model_module (world_size : nat) (p : params) : option params :=
  if 1 <? world_size then Some p else None.

(** The body of [for images, labels in train_loader]. *)
Definition batch_body (s : train_state) (b : batch) : train_state :=
  let '(l, p) := train_step (model s) b in
  TrainState p (train_loader s) (Some l) (log s ++ [Trained b]).

(** The body of [for epoch in range(10)]. *)
Definition epoch_body (world_size world_rank epoch : nat) (s : train_state)
    : train_state * option train_error :=
  let ld := if 1 <? world_size
            then set_epoch epoch (train_loader s) else train_loader s in
  let '(batches, ld') := one_pass ld in
  let s1 := foldl batch_body
              (TrainState (model s) ld' (loss s) (log s)) batches in
  match loss s1 with
  | None => (s1, Some UnboundLocalError)
  | Some l =>
      let metrics := Metrics l epoch in
      match model_module world_size (model s1) with
      | None => (s1, Some AttributeError)
      | Some module =>
          let log1 := log s1 ++ [Reported metrics (save_checkpoint module)] in
          let log2 := if world_rank =? 0 then log1 ++ [Printed metrics]
                      else log1 in
          (TrainState (model s1) (train_loader s1) (loss s1) log2, None)
      end
  end.

Fixpoint epochs (world_size world_rank : nat) (range : list nat)
    (s : train_state) : train_state * option train_error :=
  match range with
  | [] => (s, None)
  | epoch :: range' =>
      match epoch_body world_size world_rank epoch s with
      | (s', Some err) => (s', Some err)
      | (s', None) => epochs world_size world_rank range' s'
      end
  end.

(** [train_func] on the worker of rank [world_rank] among [world_size],
    from the model [p0] and the loader [ld0] as prepared. *)
Definition train_func (world_size world_rank : nat) (p0 : params)
    (ld0 : data_loader) : train_state * option train_error :=
  epochs world_size world_rank (seq 0 10) (TrainState p0 ld0 None []).

(** The batches of the first pass. *)
Definition first_pass (world_size : nat) (ld0 : data_loader) : list batch :=
  (one_pass (if 1 <? world_size then set_epoch 0 ld0 else ld0)).1.

(** Observations on what a worker has done. *)
Definition trained (t : list train_event) : list batch :=
  omap (λ e, match e with Trained b => Some b | _ => None end) t.

Definition reported (t : list train_event) : list (metrics * checkpoint) :=
  omap (λ e, match e with Reported m c => Some (m, c) | _ => None end) t.

Definition stdout (t : list train_event) : list metrics :=
  omap (λ e, match e with Printed m => Some m | _ => None end) t.

(** Training from the parameters [p0] on the batches [bs] in order: the
    parameters reached and the loss of the last step, if there was one. *)
Definition replay (p0 : params) (bs : list batch) : params * option loss_value :=
  foldl (λ st b, let '(l, p) := train_step st.1 b in (p, Some l)) (p0, None) bs.

(** A report made after the events [pre] carries the loss of the last
    step of [pre] and the parameters reached by all the steps of [pre]. *)
Definition report_of_last_step (p0 : params) (pre : list train_event)
    (m : metrics) (c : checkpoint) : Prop :=
  (replay p0 (trained pre)).2 = Some (m_loss m) ∧
  c = save_checkpoint (replay p0 (trained pre)).1.

(** What is kept true from epoch to epoch: [model] and [loss] are what the
    steps made so far give, every report is of the last step before it,
    and the worker of rank 0 has printed what it reported, the others
    nothing. *)
Definition train_inv (world_rank : nat) (p0 : params) (s : train_state) : Prop :=
  replay p0 (trained (log s)) = (model s, loss s) ∧
  (∀ pre m c post, log s = pre ++ Reported m c :: post →
     report_of_last_step p0 pre m c) ∧
  stdout (log s) =
    (if world_rank =? 0 then fst <$> reported (log s) else []).
End TrainFunc.

(** ** Checkpoint files of the training workers

    [train_func] saves its checkpoint as ["model.pt"] in a temporary
    directory.  The variant for model-parallel training, where every rank
    saves its own part of the weights, names the file after the world rank:
    [os.path.join(temp_checkpoint_dir, f"model-rank={rank}.pt")].  The
    f-string formats the rank, an [int], in decimal. *)
Definition checkpoint_file (rank : nat) : string :=
  "model-rank=" +:+ pretty rank +:+ ".pt".

Definition checkpoint_path (temp_checkpoint_dir : string) (rank : nat) : string :=
  path_join temp_checkpoint_dir (checkpoint_file rank).

(** ** Properties of the Master-Worker program *)

Section Proofs.
Context `{NumpyRandom}.
Implicit Types (size rank r k : nat) (t : list event) (w : world)
  (m : message) (p : pc) (e : event).

(** Seeding makes the generated array independent of the state the
    process started with. *)
Lemma worker_generate_data r (g : rng) : (worker_generate r g).1 = worker_data r.
Proof.
  unfold worker_generate, worker_data, np_random_seed.
  destruct (randint 100 (seed (Z.of_nat r))) as [data_count g2].
  by destruct (randint_size 100 data_count g2).
Qed.

Lemma sends_snoc t e :
  sends (t ++ [e]) = sends t ++ match e with EvSend m => [m] | _ => [] end.
Proof. unfold sends. rewrite omap_app. by destruct e. Qed.

Lemma recvs_snoc t e :
  recvs (t ++ [e]) = recvs t ++ match e with EvRecv _ m => [m] | _ => [] end.
Proof. unfold recvs. rewrite omap_app. by destruct e. Qed.

Lemma printed_snoc r t e :
  printed r (t ++ [e]) =
  printed r t ++ match e with
                 | EvPrint r' l => if decide (r' = r) then [l] else []
                 | _ => []
                 end.
Proof.
  unfold printed. rewrite omap_app. destruct e; simpl; try done.
  by case_decide.
Qed.

Lemma sends_from_snoc r t e :
  sends_from r (t ++ [e]) =
  sends_from r t ++ match e with
                    | EvSend m => if decide (msg_source m = r) then [m] else []
                    | _ => []
                    end.
Proof.
  unfold sends_from. rewrite sends_snoc, filter_app. f_equal.
  by destruct e.
Qed.

Lemma sends_from_nil_not_elem r t :
  sends_from r t = [] → r ∉ msg_source <$> sends t.
Proof.
  unfold sends_from. intros Hnil [m [-> Hm]]%list_elem_of_fmap.
  assert (m ∈ filter (λ m', msg_source m' = msg_source m) (sends t)) as Hin.
  { by apply list_elem_of_filter. }
  rewrite Hnil in Hin. by apply not_elem_of_nil in Hin.
Qed.

(** Every step moves exactly one process, to a control point with less
    fuel. *)
Lemma step_procs size w rank k e w' :
  step size w rank k = Some (e, w') →
  ∃ p p', procs w !! rank = Some p ∧ procs w' = <[rank := p']> (procs w) ∧
          fuel size p' < fuel size p.
Proof.
  unfold step. intros Hs.
  destruct (procs w !! rank) as [p|] eqn:Hp; [|done].
  exists p.
  destruct p; repeat case_match; simplify_eq; eexists;
    (split; [done|]); (split; [done|]); simpl; try lia.
  all: match goal with
       | Hlt : (_ <? _) = true |- _ => apply Nat.ltb_lt in Hlt
       | Hlt : (_ <? _) = false |- _ => apply Nat.ltb_ge in Hlt
       end; lia.
Qed.

Lemma sum_list_with_insert_lt {A} (f : A → nat) (l : list A) i x y :
  l !! i = Some y → f x < f y →
  sum_list_with f (<[i := x]> l) < sum_list_with f l.
Proof.
  revert i. induction l as [|a l IH]; intros [|i] Hl Hf; simplify_eq/=.
  - lia.
  - specialize (IH i Hl Hf). lia.
Qed.

Lemma step_fuel size w rank k e w' :
  step size w rank k = Some (e, w') → total_fuel size w' < total_fuel size w.
Proof.
  intros (p & p' & Hp & Hw' & Hf)%step_procs. unfold total_fuel.
  rewrite Hw'. by eapply sum_list_with_insert_lt.
Qed.

(** Termination: a schedule cannot be longer than the fuel of the world it
    starts from; no interleaving runs forever. *)
Lemma exec_fuel size sched : ∀ w t w',
  exec size w sched = Some (t, w') →
  length sched + total_fuel size w' ≤ total_fuel size w.
Proof.
  induction sched as [|[rank k] sched IH]; intros w t w' He; simplify_eq/=.
  - lia.
  - destruct (step size w rank k) as [[e w1]|] eqn:Hs; [|done].
    destruct (exec size w1 sched) as [[t1 w2]|] eqn:He1; simplify_eq.
    apply IH in He1. apply step_fuel in Hs. lia.
Qed.

(** The invariant is preserved by every step, whoever moves. *)
Lemma step_inv size t w rank k e w' :
  inv size t w → step size w rank k = Some (e, w') → inv size (t ++ [e]) w'.
Proof.
  intros [Hlen Hwk Hms Hsd Hnd Hnet] Hs.
  unfold step in Hs.
  destruct (procs w !! rank) as [p|] eqn:Hp; [|done].
  pose proof (lookup_lt_Some _ _ _ Hp) as Hlt.
  destruct (decide (rank < size - 1)) as [Hw|Hm].
  - pose proof (Hwk _ _ Hw Hp) as Hme.
    apply Nat.ltb_lt in Hw as Hw'. 
    destruct p; simpl in Hme; try done; rewrite ?Hw' in Hs; repeat case_match; simplify_eq.
    all: split; simpl;
      [ by rewrite length_insert
      | intros r p Hr; rewrite sends_from_snoc, printed_snoc; simpl;
        destruct (decide (rank = r)) as [->|Hne];
        [ rewrite list_lookup_insert_eq by lia; intros ?; simplify_eq/=
        | rewrite list_lookup_insert_ne by done; intros Hl;
          repeat case_decide; simplify_eq; rewrite ?app_nil_r; eauto ]
      | intros p; rewrite recvs_snoc, printed_snoc; simpl;
        rewrite list_lookup_insert_ne by lia; intros Hl;
        repeat case_decide; try lia; rewrite ?app_nil_r; eauto
      | rewrite sends_snoc; simpl; rewrite ?app_nil_r; try done
      | rewrite sends_snoc; simpl; rewrite ?app_nil_r; try done
      | rewrite sends_snoc, recvs_snoc; simpl; rewrite ?app_nil_r; try done ].
    + destruct Hme as [-> ->]. by rewrite worker_generate_data.
    + by destruct Hme as (-> & -> & ->).
    + intros m [Hm| ->%list_elem_of_singleton]%elem_of_app; [by eauto|].
      simpl. split; [lia|]. by destruct Hme as [-> _].
    + rewrite fmap_app. apply NoDup_app. split; [done|]. split.
      * intros x Hx ->%list_elem_of_singleton.
        destruct Hme as (_ & Hnil & _).
        by apply sends_from_nil_not_elem in Hnil.
      * apply NoDup_singleton.
    + rewrite Hnet. by rewrite (assoc (++)).
    + by destruct Hme as (-> & -> & ->).
    + by destruct Hme as [-> ->].
  - assert (rank = size - 1) as -> by lia.
    pose proof (Hms _ Hp) as Hme.
    assert ((size - 1 <? size - 1) = false) as Hw' by (apply Nat.ltb_ge; lia).
    destruct p; simpl in Hme; try done; rewrite ?Hw' in Hs; repeat case_match; simplify_eq.
    all: split; simpl;
      [ by rewrite length_insert
      | intros r p Hr; rewrite sends_from_snoc, printed_snoc; simpl;
        rewrite list_lookup_insert_ne by lia; intros Hl;
        repeat case_decide; try lia; rewrite ?app_nil_r; eauto
      | intros p; rewrite recvs_snoc, printed_snoc; simpl;
        rewrite list_lookup_insert_eq by lia; intros ?; simplify_eq/=
      | rewrite sends_snoc; simpl; rewrite ?app_nil_r; try done
      | rewrite sends_snoc; simpl; rewrite ?app_nil_r; try done
      | rewrite sends_snoc, recvs_snoc; simpl; rewrite ?app_nil_r; try done ].
    + destruct Hme as [-> ->]. simpl. split; [lia|done].
    + destruct Hme as (Hi & Hl & Hout).
      match goal with Hb : (_ <? _) = true |- _ => apply Nat.ltb_lt in Hb end.
      split; [done|]. exists (recvs t). by rewrite app_nil_r.
    + rewrite Hnet. rewrite <-(assoc (++)). f_equiv. simpl.
      by apply delete_Permutation.
    + destruct Hme as (Hi & Hl & Hout).
      match goal with Hb : (_ <? _) = false |- _ => apply Nat.ltb_ge in Hb end.
      rewrite !app_nil_r. split; [lia|done].
    + destruct Hme as (Hi & pre & Hl & Hr & Hout).
      rewrite decide_True by done. rewrite app_nil_r, Hr, Hout.
      rewrite length_app, fmap_app. simpl. split; [lia|]. split; [lia|done].
    + by rewrite !app_nil_r.
Qed.

Lemma init_inv size (g0 : nat → rng) : inv size [] (init size g0).
Proof.
  split; simpl.
  - by rewrite length_fmap, length_seq.
  - intros r p _ Hl. rewrite list_lookup_fmap in Hl.
    destruct (seq 0 size !! r); by simplify_eq/=.
  - intros p Hl. rewrite list_lookup_fmap in Hl.
    destruct (seq 0 size !! (size - 1)); by simplify_eq/=.
  - intros m Hm. by apply not_elem_of_nil in Hm.
  - apply NoDup_nil_2.
  - done.
Qed.

Lemma exec_inv size sched : ∀ t0 w t w',
  inv size t0 w → exec size w sched = Some (t, w') → inv size (t0 ++ t) w'.
Proof.
  induction sched as [|[rank k] sched IH]; intros t0 w t w' Hinv He; simplify_eq/=.
  - by rewrite app_nil_r.
  - destruct (step size w rank k) as [[e w1]|] eqn:Hs; [|done].
    destruct (exec size w1 sched) as [[t1 w2]|] eqn:He1; simplify_eq.
    rewrite (assoc (++) t0 [e] t1). eapply IH; [|done]. by eapply step_inv.
Qed.

Lemma run_inv size (g0 : nat → rng) sched t w :
  exec size (init size g0) sched = Some (t, w) → inv size t w.
Proof. intros He. by apply (exec_inv _ _ [] _ _ _ (init_inv size g0)) in He. Qed.

(** In a finished world every process has left the barrier. *)
Lemma finished_lookup w r p :
  finished w = true → procs w !! r = Some p → p = Finished.
Proof.
  unfold finished. rewrite forallb_forall. intros Hall Hl.
  apply list_elem_of_lookup_2, list_elem_of_In, Hall in Hl. by destruct p.
Qed.

(** Every worker that has passed its send is counted in [sends]. *)
Lemma sends_length_le size t w : inv size t w → length (sends t) ≤ size - 1.
Proof.
  intros Hinv. rewrite <-(length_fmap msg_source).
  trans (length (seq 0 (size - 1))); [|by rewrite length_seq].
  apply submseteq_length, NoDup_submseteq; [by destruct Hinv|].
  intros x (m & -> & Hm)%list_elem_of_fmap. apply elem_of_seq.
  destruct (inv_sends _ _ _ Hinv m Hm). lia.
Qed.

Lemma sends_length_ge size t w :
  inv size t w →
  (∀ r p, r < size - 1 → procs w !! r = Some p → in_barrier p = true) →
  size - 1 ≤ length (sends t).
Proof.
  intros Hinv Hall.
  rewrite <-(length_fmap msg_source (sends t)).
  trans (length (seq 0 (size - 1))); [by rewrite length_seq|].
  apply submseteq_length, NoDup_submseteq; [apply NoDup_seq|].
  intros r [_ Hr]%elem_of_seq. simpl in Hr.
  destruct (lookup_lt_is_Some_2 (procs w) r) as [p Hp].
  { rewrite (inv_length _ _ _ Hinv). lia. }
  pose proof (inv_workers _ _ _ Hinv r p Hr Hp) as Hok.
  pose proof (Hall r p Hr Hp) as Hb.
  assert (sends_from r t = [worker_message size r]) as Hs.
  { destruct p; simplify_eq/=; by destruct Hok. }
  assert (worker_message size r ∈ sends_from r t) as Hin.
  { rewrite Hs. apply list_elem_of_singleton. done. }
  apply list_elem_of_filter in Hin as [_ Hin].
  apply list_elem_of_fmap. by exists (worker_message size r).
Qed.

Lemma forallb_lookup (f : pc → bool) (l : list pc) :
  forallb f l = true ↔ ∀ r p, l !! r = Some p → f p = true.
Proof.
  rewrite <-Is_true_true, forallb_True, Forall_lookup.
  by setoid_rewrite Is_true_true.
Qed.

Lemma not_forallb_lookup (f : pc → bool) (l : list pc) :
  forallb f l = false → ∃ r p, l !! r = Some p ∧ f p = false.
Proof.
  induction l as [|a l IH]; simpl; [done|].
  destruct (f a) eqn:Hfa; simpl.
  - intros (r & p & ? & ?)%IH. by exists (S r), p.
  - intros _. by exists 0, a.
Qed.

(** A run that is over: what was sent, received and printed. *)
Lemma finished_facts size t w :
  1 ≤ size → inv size t w → finished w = true →
  (∀ r, r < size - 1 →
     sends_from r t = [worker_message size r] ∧
     printed r t = [WorkerLine r (length (worker_data r))]) ∧
  length (recvs t) = size - 1 ∧
  printed (size - 1) t = report <$> recvs t ∧
  net w = [] ∧
  recvs t ≡ₚ sends t.
Proof.
  intros Hsz Hinv Hfin.
  assert (∀ r, r < size → procs w !! r = Some Finished) as Hall.
  { intros r Hr. destruct (lookup_lt_is_Some_2 (procs w) r) as [p Hp].
    { by rewrite (inv_length _ _ _ Hinv). }
    by rewrite Hp, (finished_lookup _ _ _ Hfin Hp). }
  assert (length (recvs t) = size - 1 ∧
          printed (size - 1) t = report <$> recvs t) as [Hlen Hout].
  { apply (inv_master _ _ _ Hinv Finished), Hall. lia. }
  assert (net w = []) as Hnet.
  { apply length_zero_iff_nil.
    pose proof (sends_length_le _ _ _ Hinv) as Hle.
    rewrite (inv_net _ _ _ Hinv), length_app in Hle. lia. }
  split_and!; try done.
  - intros r Hr. apply (inv_workers _ _ _ Hinv r Finished Hr), Hall. lia.
  - by rewrite (inv_net _ _ _ Hinv), Hnet, app_nil_r.
Qed.

(** Deadlock freedom: a reachable world that is not finished has a
    process that can move. *)
Lemma progress size t w :
  inv size t w → finished w = false →
  ∃ rank k e w', step size w rank k = Some (e, w').
Proof.
  intros Hinv Hnf.
  destruct (forallb (negb ∘ runnable) (procs w)) eqn:Hrun.
  2:{ apply not_forallb_lookup in Hrun as (r & p & Hp & Hr).
      exists r, 0. unfold step. rewrite Hp.
      destruct p; simplify_eq/=; try (destruct (r <? size - 1)); eauto. }
  rewrite forallb_lookup in Hrun.
  apply not_forallb_lookup in Hnf as (r0 & p0 & Hp0 & Hnf0).
  assert (1 ≤ size) as Hsz.
  { apply lookup_lt_Some in Hp0. rewrite (inv_length _ _ _ Hinv) in Hp0. lia. }
  assert (∀ r p, r < size - 1 → procs w !! r = Some p → in_barrier p = true)
    as Hwk.
  { intros r p Hr Hp. pose proof (inv_workers _ _ _ Hinv r p Hr Hp) as Hok.
    pose proof (Hrun r p Hp). by destruct p. }
  destruct (lookup_lt_is_Some_2 (procs w) (size - 1)) as [pm Hpm].
  { rewrite (inv_length _ _ _ Hinv). lia. }
  pose proof (inv_master _ _ _ Hinv pm Hpm) as Hok.
  pose proof (Hrun _ _ Hpm) as Hrm.
  destruct (in_barrier pm) eqn:Hbm.
  - assert (forallb in_barrier (procs w) = true) as Hbar.
    { apply forallb_lookup. intros r p Hp.
      pose proof (lookup_lt_Some _ _ _ Hp) as Hlt.
      rewrite (inv_length _ _ _ Hinv) in Hlt.
      destruct (decide (r < size - 1)); [by eauto|].
      assert (r = size - 1) as -> by lia. by simplify_eq. }
    exists r0, 0. unfold step. rewrite Hp0.
    rewrite forallb_lookup in Hbar. pose proof (Hbar _ _ Hp0) as Hb0.
    destruct p0; simplify_eq/=.
    apply forallb_lookup in Hbar. rewrite Hbar. eauto.
  - destruct pm as [| | |i| | |]; simplify_eq/=.
    exists (size - 1), 0. unfold step. rewrite Hpm.
    destruct (i <? size - 1) eqn:Hi; [|by eauto].
    apply Nat.ltb_lt in Hi. destruct Hok as (_ & Hlen & _).
    pose proof (sends_length_ge _ _ _ Hinv Hwk) as Hge.
    pose proof (inv_net _ _ _ Hinv) as Hnet.
    rewrite Hnet, length_app in Hge.
    destruct (net w) as [|m n] eqn:Hn; simpl in Hge; [lia|]. simpl.
    assert (m ∈ sends t) as Hm.
    { rewrite Hnet. apply elem_of_app. right. apply list_elem_of_here. }
    apply (inv_sends _ _ _ Hinv) in Hm as [_ ->]. simpl.
    rewrite decide_True by done. eauto.
Qed.

(** Every reachable world can be run to the end. *)
Lemma completion size n : ∀ t w,
  inv size t w → total_fuel size w ≤ n →
  ∃ sched t' w', exec size w sched = Some (t', w') ∧ finished w' = true.
Proof.
  induction n as [|n IH]; intros t w Hinv Hn.
  - destruct (finished w) eqn:Hf; [by exists [], [], w|].
    destruct (progress _ _ _ Hinv Hf) as (rank & k & e & w' & Hs).
    apply step_fuel in Hs. lia.
  - destruct (finished w) eqn:Hf; [by exists [], [], w|].
    destruct (progress _ _ _ Hinv Hf) as (rank & k & e & w' & Hs).
    destruct (IH (t ++ [e]) w') as (sched & t' & w'' & He & Hfin).
    { by eapply step_inv. }
    { apply step_fuel in Hs. lia. }
    exists ((rank, k) :: sched), (e :: t'), w''. simpl. by rewrite Hs, He.
Qed.

(** A [recv] only matches a message addressed to the receiver. *)
Lemma exec_recv_dest size sched : ∀ w t w' rank m,
  exec size w sched = Some (t, w') → EvRecv rank m ∈ t → msg_dest m = rank.
Proof.
  induction sched as [|[r k] sched IH]; intros w t w' rank m He Hin; simplify_eq/=.
  - by apply not_elem_of_nil in Hin.
  - destruct (step size w r k) as [[e w1]|] eqn:Hs; [|done].
    destruct (exec size w1 sched) as [[t1 w2]|] eqn:He1; simplify_eq.
    apply elem_of_cons in Hin as [<-|Hin]; [|by eauto].
    unfold step in Hs. repeat case_match; by simplify_eq.
Qed.

Lemma recvs_elem t rank m : EvRecv rank m ∈ t → m ∈ recvs t.
Proof. intros Hin. apply list_elem_of_omap. by exists (EvRecv rank m). Qed.

Lemma inv_received size t w m :
  inv size t w → m ∈ recvs t →
  msg_source m < size - 1 ∧ m = worker_message size (msg_source m).
Proof.
  intros Hinv Hm. apply (inv_sends _ _ _ Hinv).
  rewrite (inv_net _ _ _ Hinv). apply elem_of_app. by left.
Qed.

Lemma inv_sends_NoDup size t w : inv size t w → NoDup (sends t).
Proof. intros Hinv. eapply NoDup_fmap_1, (inv_nodup _ _ _ Hinv). Qed.

(** C9.  In the Master-Worker example with [size ≥ 2] processes the run
    can always be completed, and in every completed run: each worker
    [r < size - 1] has sent exactly one message, to rank [size - 1];
    nobody else has sent, which makes [size - 1] sends; exactly
    [size - 1] receives have taken place,
    all of them by the master; the received messages are the sent ones,
    each once; and the line the master prints for a message carries the
    length of the array its sender generated (the length that worker
    prints itself). *)
Theorem master_worker_exchange size (g0 : nat → rng) :
  2 ≤ size →
  (∃ sched t w, exec size (init size g0) sched = Some (t, w) ∧ finished w = true) ∧
  ∀ sched t w,
    exec size (init size g0) sched = Some (t, w) → finished w = true →
    (∀ r, r < size - 1 →
       sends_from r t = [Msg r (size - 1) (worker_data r)] ∧
       printed r t = [WorkerLine r (length (worker_data r))]) ∧
    (∀ m, m ∈ sends t → msg_source m < size - 1) ∧
    length (sends t) = size - 1 ∧
    length (recvs t) = size - 1 ∧
    (∀ rank m, EvRecv rank m ∈ t → rank = size - 1) ∧
    recvs t ≡ₚ sends t ∧ NoDup (recvs t) ∧
    printed (size - 1) t =
      (λ m, MasterLine (msg_source m) (length (worker_data (msg_source m))))
        <$> recvs t.
Proof.
  intros Hsz. split.
  - apply (completion size (total_fuel size (init size g0)) []); [|done].
    apply init_inv.
  - intros sched t w He Hfin. pose proof (run_inv _ _ _ _ _ He) as Hinv.
    destruct (finished_facts size t w) as (Hwk & Hlen & Hout & Hnet & Hperm);
      [lia|done|done|].
    split_and!; try done.
    + intros m Hm. by apply (inv_sends _ _ _ Hinv).
    + by rewrite <-Hperm.
    + intros rank m Hin. rewrite <-(exec_recv_dest _ _ _ _ _ _ _ He Hin).
      apply recvs_elem in Hin.
      apply (inv_received _ _ _ _ Hinv) in Hin as [_ ->]. done.
    + rewrite Hperm. by eapply inv_sends_NoDup.
    + rewrite Hout. apply list_fmap_ext. intros i m Hm.
      apply list_elem_of_lookup_2, (inv_received _ _ _ _ Hinv) in Hm as [_ Hm].
      unfold report. by rewrite Hm at 2.
Qed.

(** C10.  The worker seeds the generator with its rank before drawing, so
    the message a worker sends does not depend on the generator state its
    process started with: in any two runs with the same [size], from
    whatever initial generator states [g0] and [g0'] and under whatever
    schedules, two messages sent by the same rank are equal, both being
    [worker_data] of that rank (length and contents); and when both runs
    are complete every worker has sent that one message in each. *)
Theorem worker_messages_deterministic size (g0 g0' : nat → rng)
    sched sched' t t' w w' :
  exec size (init size g0) sched = Some (t, w) →
  exec size (init size g0') sched' = Some (t', w') →
  (∀ m m', m ∈ sends t → m' ∈ sends t' → msg_source m = msg_source m' →
     m = m' ∧ msg_data m = worker_data (msg_source m)) ∧
  (finished w = true → finished w' = true →
   ∀ r, r < size - 1 →
     sends_from r t = [Msg r (size - 1) (worker_data r)] ∧
     sends_from r t' = sends_from r t).
Proof.
  intros He He'.
  pose proof (run_inv _ _ _ _ _ He) as Hinv.
  pose proof (run_inv _ _ _ _ _ He') as Hinv'. split.
  - intros m m' Hm Hm' Hsrc.
    apply (inv_sends _ _ _ Hinv) in Hm as [_ Hm].
    apply (inv_sends _ _ _ Hinv') in Hm' as [_ Hm'].
    rewrite Hm, Hm', Hsrc. done.
  - intros Hfin Hfin' r Hr.
    destruct (finished_facts size t w) as (Hwk & _); [lia|done|done|].
    destruct (finished_facts size t' w') as (Hwk' & _); [lia|done|done|].
    destruct (Hwk r Hr) as [-> _]. by destruct (Hwk' r Hr) as [-> _].
Qed.

End Proofs.

(** ** Liveness, termination and output order of the Master-Worker program *)

Section MoreProofs.
Context `{NumpyRandom}.
Implicit Types (size rank r k : nat) (t : list event) (w : world)
  (m : message) (p : pc) (e : event).

(** Runs compose. *)
Lemma exec_app size sched1 : ∀ sched2 w t1 w1 t2 w2,
  exec size w sched1 = Some (t1, w1) →
  exec size w1 sched2 = Some (t2, w2) →
  exec size w (sched1 ++ sched2) = Some (t1 ++ t2, w2).
Proof.
  induction sched1 as [|[rank k] sched1 IH]; intros sched2 w t1 w1 t2 w2 H1 H2;
    simplify_eq/=; [done|].
  destruct (step size w rank k) as [[e w']|]; [|done].
  destruct (exec size w' sched1) as [[t' w'']|] eqn:He; simplify_eq.
  by rewrite (IH _ _ _ _ _ _ He H2).
Qed.

Lemma exec_length size sched : ∀ w t w',
  exec size w sched = Some (t, w') → length t = length sched.
Proof.
  induction sched as [|[rank k] sched IH]; intros w t w' He; simplify_eq/=; [done|].
  destruct (step size w rank k) as [[e w1]|]; [|done].
  destruct (exec size w1 sched) as [[t1 w2]|] eqn:He1; simplify_eq/=.
  f_equal. by eapply IH.
Qed.

(** A trace cut at one of its events: the run up to that event, the step
    that produced it, and the rest of the run. *)
Lemma exec_split size sched : ∀ w t w' pre e post,
  exec size w sched = Some (t, w') → t = pre ++ e :: post →
  ∃ sched1 rank k sched2 w1 w2,
    exec size w sched1 = Some (pre, w1) ∧
    step size w1 rank k = Some (e, w2) ∧
    exec size w2 sched2 = Some (post, w').
Proof.
  induction sched as [|[rank k] sched IH]; intros w t w' pre e post He Ht;
    simplify_eq/=.
  - by destruct pre.
  - destruct (step size w rank k) as [[e1 w1]|] eqn:Hs; [|done].
    destruct (exec size w1 sched) as [[t1 w2]|] eqn:He1; simplify_eq/=.
    destruct pre as [|e0 pre]; simplify_eq/=.
    + by exists [], rank, k, sched, w, w1.
    + destruct (IH _ _ _ _ _ _ He1 eq_refl)
        as (sched1 & r' & k' & sched2 & wa & wb & Ha & Hb & Hc).
      exists ((rank, k) :: sched1), r', k', sched2, wa, wb. simpl.
      by rewrite Hs, Ha.
Qed.

(** Once every process is in the barrier, everything has been sent,
    received and printed. *)
Lemma barrier_facts size t w :
  1 ≤ size → inv size t w → forallb in_barrier (procs w) = true →
  (∀ r, r < size - 1 →
     sends_from r t = [worker_message size r] ∧
     printed r t = [WorkerLine r (length (worker_data r))]) ∧
  length (recvs t) = size - 1 ∧
  printed (size - 1) t = report <$> recvs t ∧
  net w = [] ∧
  recvs t ≡ₚ sends t.
Proof.
  intros Hsz Hinv Hbar. rewrite forallb_lookup in Hbar.
  assert (∀ r, r < size → ∃ p, procs w !! r = Some p ∧ in_barrier p = true) as Hall.
  { intros r Hr. destruct (lookup_lt_is_Some_2 (procs w) r) as [p Hp].
    { by rewrite (inv_length _ _ _ Hinv). }
    exists p. split; [done|]. by eapply Hbar. }
  assert (length (recvs t) = size - 1 ∧
          printed (size - 1) t = report <$> recvs t) as [Hlen Hout].
  { destruct (Hall (size - 1)) as (p & Hp & Hb); [lia|].
    pose proof (inv_master _ _ _ Hinv p Hp) as Hok. by destruct p. }
  assert (net w = []) as Hnet.
  { apply length_zero_iff_nil.
    pose proof (sends_length_le _ _ _ Hinv) as Hle.
    rewrite (inv_net _ _ _ Hinv), length_app in Hle. lia. }
  split_and!; try done.
  - intros r Hr. destruct (Hall r) as (p & Hp & Hb); [lia|].
    pose proof (inv_workers _ _ _ Hinv r p Hr Hp) as Hok. by destruct p.
  - by rewrite (inv_net _ _ _ Hinv), Hnet, app_nil_r.
Qed.

Lemma step_leave size w rank k r w' :
  step size w rank k = Some (EvLeaveBarrier r, w') →
  forallb in_barrier (procs w) = true.
Proof. unfold step. intros Hs. repeat case_match; by simplify_eq. Qed.

(** From a world with every process in the barrier, the only thing that
    happens is processes leaving it. *)
Lemma step_in_barrier size w rank k e w' :
  forallb in_barrier (procs w) = true →
  step size w rank k = Some (e, w') →
  e = EvLeaveBarrier rank ∧ forallb in_barrier (procs w') = true.
Proof.
  intros Hbar Hs. pose proof Hbar as Hbar'. rewrite forallb_lookup in Hbar'.
  unfold step in Hs. destruct (procs w !! rank) as [p|] eqn:Hp; [|done].
  pose proof (Hbar' _ _ Hp) as Hb. destruct p; simplify_eq/=.
  rewrite Hbar in Hs. simplify_eq/=. split; [done|].
  apply forallb_lookup. intros r p Hl.
  destruct (decide (rank = r)) as [->|Hne].
  - rewrite list_lookup_insert_eq in Hl by by eapply lookup_lt_Some.
    by simplify_eq.
  - rewrite list_lookup_insert_ne in Hl by done. by eapply Hbar'.
Qed.

Lemma exec_in_barrier size sched : ∀ w t w',
  forallb in_barrier (procs w) = true →
  exec size w sched = Some (t, w') →
  ∀ e, e ∈ t → ∃ r, e = EvLeaveBarrier r.
Proof.
  induction sched as [|[rank k] sched IH]; intros w t w' Hbar He e Hin;
    simplify_eq/=.
  - by apply not_elem_of_nil in Hin.
  - destruct (step size w rank k) as [[e1 w1]|] eqn:Hs; [|done].
    destruct (exec size w1 sched) as [[t1 w2]|] eqn:He1; simplify_eq/=.
    destruct (step_in_barrier _ _ _ _ _ _ Hbar Hs) as [-> Hbar1].
    apply elem_of_cons in Hin as [->|Hin]; [by eauto|by eapply IH].
Qed.

(** X3.  [comm.Barrier()] separates the output from the end of the
    processes: when the first process leaves the barrier every worker has
    sent its message and printed its line and the master has received and
    printed all [size - 1] of them; after that, the only thing that happens
    is processes leaving the barrier. *)
Theorem barrier_after_all_output size (g0 : nat → rng) sched t w pre r post :
  1 ≤ size →
  exec size (init size g0) sched = Some (t, w) →
  t = pre ++ EvLeaveBarrier r :: post →
  (∀ r', r' < size - 1 →
     sends_from r' pre = [worker_message size r'] ∧
     printed r' pre = [WorkerLine r' (length (worker_data r'))]) ∧
  length (recvs pre) = size - 1 ∧
  printed (size - 1) pre = report <$> recvs pre ∧
  (∀ e, e ∈ post → ∃ r', e = EvLeaveBarrier r').
Proof.
  intros Hsz He Ht.
  destruct (exec_split _ _ _ _ _ _ _ _ He Ht)
    as (sched1 & rank & k & sched2 & w1 & w2 & H1 & Hs & H2).
  pose proof (run_inv _ _ _ _ _ H1) as Hinv.
  pose proof (step_leave _ _ _ _ _ _ Hs) as Hbar.
  destruct (barrier_facts size pre w1) as (Hwk & Hlen & Hout & _ & _);
    [done..|].
  split_and!; try done.
  destruct (step_in_barrier _ _ _ _ _ _ Hbar Hs) as [_ Hbar2].
  by eapply exec_in_barrier.
Qed.

(** X1.  The example cannot deadlock: whatever has happened so far, under
    whatever interleaving and matching order, some process can move unless
    all have finished, and the run can be continued to the end. *)
Theorem master_worker_always_completes size (g0 : nat → rng) sched t w :
  exec size (init size g0) sched = Some (t, w) →
  (finished w = false → ∃ rank k e w1, step size w rank k = Some (e, w1)) ∧
  ∃ sched' t' w',
    exec size (init size g0) (sched ++ sched') = Some (t ++ t', w') ∧
    finished w' = true.
Proof.
  intros He. pose proof (run_inv _ _ _ _ _ He) as Hinv. split.
  - by apply (progress size t).
  - destruct (completion size (total_fuel size w) t w Hinv)
      as (sched' & t' & w' & He' & Hfin); [done|].
    exists sched', t', w'. split; [|done]. by eapply exec_app.
Qed.

(** Sums of an indexed measure over the processes. *)
Lemma sum_imap_insert (f : nat → pc → nat) (l : list pc) i x y :
  l !! i = Some y → f i y = S (f i x) →
  sum_list (imap f l) = S (sum_list (imap f (<[i := x]> l))).
Proof.
  revert f i. induction l as [|a l IH]; intros f [|i] Hl Hf; simplify_eq/=.
  - lia.
  - rewrite (IH (f ∘ S) i); [lia|done|done].
Qed.

Lemma sum_imap_zero (f : nat → pc → nat) (l : list pc) :
  sum_list (imap f l) = 0 ↔ ∀ i x, l !! i = Some x → f i x = 0.
Proof.
  revert f. induction l as [|a l IH]; intros f; simpl.
  - split; [by intros _ i x ?|done].
  - split.
    + intros Hs [|i] x Hl; simplify_eq/=; [lia|].
      assert (sum_list (imap (f ∘ S) l) = 0) as H0 by lia.
      rewrite IH in H0. by apply (H0 i x).
    + intros Hall. rewrite (Hall 0 a eq_refl). simpl. apply IH.
      intros i x Hl. by apply (Hall (S i) x).
Qed.

(** Every step of a reachable world uses up exactly one of the steps
    left. *)
Lemma step_steps_left size t w rank k e w' :
  inv size t w → step size w rank k = Some (e, w') →
  total_steps_left size w = S (total_steps_left size w').
Proof.
  intros Hinv Hs. unfold total_steps_left, step in *.
  destruct (procs w !! rank) as [p|] eqn:Hp; [|done].
  pose proof (lookup_lt_Some _ _ _ Hp) as Hlt.
  rewrite (inv_length _ _ _ Hinv) in Hlt.
  assert (rank = size - 1 → master_ok size (recvs t) (printed (size - 1) t) p)
    as Hms by (intros ->; by apply (inv_master _ _ _ Hinv)).
  assert (rank < size - 1 → worker_ok size rank (sends_from rank t) (printed rank t) p)
    as Hwk by (intros ?; by apply (inv_workers _ _ _ Hinv)).
  destruct p; repeat case_match; simplify_eq/=;
    (eapply sum_imap_insert; [done|]); simpl;
    repeat match goal with
           | Hb : (_ <? _) = true |- _ => apply Nat.ltb_lt in Hb
           | Hb : (_ <? _) = false |- _ => apply Nat.ltb_ge in Hb
           end.
  all: try (destruct (rank <? size - 1) eqn:Hr;
            [apply Nat.ltb_lt in Hr|apply Nat.ltb_ge in Hr]).
  all: try (specialize (Hwk ltac:(lia))); try (specialize (Hms ltac:(lia)));
    simpl in *; try done; try lia.
Qed.

Lemma init_steps_left size (g0 : nat → rng) :
  1 ≤ size → total_steps_left size (init size g0) = 6 * size - 3.
Proof.
  intros Hsz. unfold total_steps_left, init. simpl.
  rewrite imap_fmap.
  rewrite (imap_ext _ (λ j _, if j <? size - 1 then 4 else 2 * (size - 1) + 3))
    by done.
  rewrite imap_seq_0, length_seq.
  destruct size as [|n]; [lia|]. replace (S n - 1) with n by lia.
  rewrite seq_S, fmap_app, sum_list_with_app. simpl.
  rewrite Nat.ltb_irrefl.
  assert (∀ j, j ≤ n →
            sum_list ((λ j, if j <? n then 4 else 2 * n + 3) <$> seq 0 j) = 4 * j)
    as Hsum.
  { induction j as [|j IH]; intros Hj; [done|].
    rewrite seq_S, fmap_app, sum_list_with_app, IH by lia. simpl.
    destruct (j <? n) eqn:Hlt; [lia|]. apply Nat.ltb_ge in Hlt. lia. }
  rewrite Hsum by lia. lia.
Qed.

Lemma exec_steps_left size sched : ∀ t0 w t w',
  inv size t0 w → exec size w sched = Some (t, w') →
  total_steps_left size w = length sched + total_steps_left size w'.
Proof.
  induction sched as [|[rank k] sched IH]; intros t0 w t w' Hinv He; simplify_eq/=.
  - done.
  - destruct (step size w rank k) as [[e w1]|] eqn:Hs; [|done].
    destruct (exec size w1 sched) as [[t1 w2]|] eqn:He1; simplify_eq.
    rewrite (step_steps_left _ _ _ _ _ _ _ Hinv Hs).
    by rewrite (IH _ _ _ _ (step_inv _ _ _ _ _ _ _ Hinv Hs) He1).
Qed.

Lemma steps_left_finished size w :
  total_steps_left size w = 0 ↔ finished w = true.
Proof.
  unfold total_steps_left, finished. rewrite sum_imap_zero, forallb_lookup.
  split; intros Hall r p Hp; specialize (Hall r p Hp).
  - destruct p; simpl in *; try done; try lia.
    destruct (r <? size - 1); lia.
  - by destruct p.
Qed.

(** X2.  Every run terminates: a run of [size] processes never has more
    than [6 * size - 3] steps (four per worker, [2 * (size - 1) + 3] for
    the master), and it is complete exactly when it has that many. *)
Theorem master_worker_step_count size (g0 : nat → rng) sched t w :
  1 ≤ size →
  exec size (init size g0) sched = Some (t, w) →
  length t ≤ 6 * size - 3 ∧ (finished w = true ↔ length t = 6 * size - 3).
Proof.
  intros Hsz He.
  pose proof (exec_steps_left _ _ [] _ _ _ (init_inv size g0) He) as Hst.
  rewrite init_steps_left in Hst by done.
  rewrite (exec_length _ _ _ _ _ He), <-(steps_left_finished size).
  split; [lia|]. split; lia.
Qed.

Lemma recvs_app t1 t2 : recvs (t1 ++ t2) = recvs t1 ++ recvs t2.
Proof. apply omap_app. Qed.

Lemma printed_app r t1 t2 : printed r (t1 ++ t2) = printed r t1 ++ printed r t2.
Proof. apply omap_app. Qed.

(** The master, waiting in [recv] with [i < size - 1], can take any message
    in flight that is addressed to it, and then prints it. *)
Lemma recv_enabled size w i m :
  procs w !! (size - 1) = Some (MasterRecv i) → i < size - 1 →
  m ∈ net w → msg_dest m = size - 1 →
  ∃ k w',
    exec size w [(size - 1, k); (size - 1, 0)] =
      Some ([EvRecv (size - 1) m; EvPrint (size - 1) (report m)], w') ∧
    procs w' !! (size - 1) = Some (MasterRecv (S i)).
Proof.
  intros Hp Hi [k Hk]%list_elem_of_lookup_1 Hd.
  pose proof (lookup_lt_Some _ _ _ Hp) as Hlt.
  apply Nat.ltb_lt in Hi.
  exists k. eexists. simpl. unfold step at 1. rewrite Hp, Hi, Hk.
  rewrite decide_True by done. unfold step at 1. simpl.
  rewrite list_lookup_insert_eq by done. split; [reflexivity|]. simpl.
  apply list_lookup_insert_eq. by rewrite length_insert.
Qed.

(** A worker that has not sent yet can be run up to its send. *)
Lemma send_enabled size t w r :
  inv size t w → r < size - 1 → sends_from r t = [] →
  ∃ sched t' w',
    exec size w sched = Some (t', w') ∧
    recvs t' = [] ∧ printed (size - 1) t' = [] ∧
    procs w' !! (size - 1) = procs w !! (size - 1) ∧
    worker_message size r ∈ net w'.
Proof.
  intros Hinv Hr Hnil.
  destruct (lookup_lt_is_Some_2 (procs w) r) as [p Hp].
  { rewrite (inv_length _ _ _ Hinv). lia. }
  pose proof (lookup_lt_Some _ _ _ Hp) as Hlt.
  pose proof (inv_workers _ _ _ Hinv r p Hr Hp) as Hok.
  apply Nat.ltb_lt in Hr as Hr'.
  destruct p; simpl in Hok; try done.
  - exists [(r, 0); (r, 0)]. eexists _, _. simpl.
    unfold step at 1. rewrite Hp, Hr'. unfold step at 1. simpl.
    rewrite list_lookup_insert_eq by done. split; [reflexivity|]. simpl.
    split_and!; try done.
    + rewrite !list_lookup_insert_ne by lia. done.
    + rewrite worker_generate_data. apply elem_of_app. right.
      by apply list_elem_of_singleton.
  - destruct Hok as (-> & _). exists [(r, 0)]. eexists _, _. simpl.
    unfold step at 1. rewrite Hp. split; [reflexivity|]. simpl.
    split_and!; try done.
    + rewrite list_lookup_insert_ne by lia. done.
    + apply elem_of_app. right. by apply list_elem_of_singleton.
  - destruct Hok as (_ & Hs & _). by rewrite Hnil in Hs.
  - destruct Hok as (Hs & _). by rewrite Hnil in Hs.
  - destruct Hok as (Hs & _). by rewrite Hnil in Hs.
Qed.

Lemma sends_from_elem r t m : m ∈ sends_from r t → m ∈ sends t.
Proof. unfold sends_from. by intros [_ ?]%list_elem_of_filter. Qed.

(** The master can be made to receive, next, the message of any worker
    whose message it has not received yet. *)
Lemma deliver size t w i r :
  inv size t w →
  procs w !! (size - 1) = Some (MasterRecv i) → i < size - 1 →
  r < size - 1 → worker_message size r ∉ recvs t →
  ∃ sched t' w',
    exec size w sched = Some (t', w') ∧
    recvs t' = [worker_message size r] ∧
    printed (size - 1) t' = [report (worker_message size r)] ∧
    procs w' !! (size - 1) = Some (MasterRecv (S i)).
Proof.
  intros Hinv Hp Hi Hr Hnot.
  assert (∃ sched1 t1 w1,
            exec size w sched1 = Some (t1, w1) ∧ recvs t1 = [] ∧
            printed (size - 1) t1 = [] ∧
            procs w1 !! (size - 1) = Some (MasterRecv i) ∧
            worker_message size r ∈ net w1)
    as (sched1 & t1 & w1 & He1 & Hr1 & Hp1 & Hm1 & Hin1).
  { destruct (sends_from r t) as [|m0 ms] eqn:Hs.
    - destruct (send_enabled size t w r) as (s1 & t1 & w1 & ? & ? & ? & Hpp & ?);
        [done..|].
      exists s1, t1, w1. rewrite Hpp. done.
    - exists [], [], w. split_and!; try done.
      destruct (lookup_lt_is_Some_2 (procs w) r) as [p Hpr].
      { rewrite (inv_length _ _ _ Hinv). lia. }
      pose proof (inv_workers _ _ _ Hinv r p Hr Hpr) as Hok.
      assert (sends_from r t = [worker_message size r]) as Hsf.
      { destruct p; simpl in Hok; try done;
          try (destruct Hok as (? & ?); congruence);
          try (destruct Hok as (? & ? & ?); congruence). }
      assert (worker_message size r ∈ sends t) as Hin.
      { apply (sends_from_elem r). rewrite Hsf. by apply list_elem_of_singleton. }
      rewrite (inv_net _ _ _ Hinv) in Hin.
      apply elem_of_app in Hin as [Hin|Hin]; [by destruct Hnot|done]. }
  destruct (recv_enabled size w1 i (worker_message size r))
    as (k & w2 & He2 & Hp2); [done..|].
  exists (sched1 ++ [(size - 1, k); (size - 1, 0)]). eexists _, w2.
  split; [by eapply exec_app|].
  rewrite recvs_app, printed_app, Hr1, Hp1. simpl.
  rewrite decide_True by done. done.
Qed.

Lemma worker_message_inj size : Inj (=) (=) (worker_message size).
Proof. intros r1 r2 Heq. by injection Heq. Qed.

Lemma deliver_all size π : ∀ t w i,
  inv size t w →
  procs w !! (size - 1) = Some (MasterRecv i) → i + length π ≤ size - 1 →
  NoDup π →
  (∀ r, r ∈ π → r < size - 1 ∧ worker_message size r ∉ recvs t) →
  ∃ sched t' w',
    exec size w sched = Some (t', w') ∧
    recvs t' = worker_message size <$> π ∧
    printed (size - 1) t' = report <$> (worker_message size <$> π).
Proof.
  induction π as [|r π IH]; intros t w i Hinv Hp Hi Hnd Hall.
  - by exists [], [], w.
  - simpl in Hi. apply NoDup_cons in Hnd as [Hnotin Hnd].
    destruct (Hall r) as [Hr Hnr]; [by left|].
    destruct (deliver size t w i r) as (s1 & t1 & w1 & He1 & Hr1 & Hp1 & Hm1);
      [done|done|lia|done|done|].
    destruct (IH (t ++ t1) w1 (S i)) as (s2 & t2 & w2 & He2 & Hr2 & Hp2).
    + by eapply exec_inv.
    + done.
    + lia.
    + done.
    + intros r' Hr'. destruct (Hall r') as [? Hn']; [by right|].
      split; [done|]. rewrite recvs_app, Hr1.
      intros [?|Heq%list_elem_of_singleton]%elem_of_app; [done|].
      apply worker_message_inj in Heq. by subst.
    + exists (s1 ++ s2), (t1 ++ t2), w2. split; [by eapply exec_app|].
      rewrite recvs_app, printed_app, Hr1, Hr2, Hp1, Hp2. done.
Qed.

Lemma reported_workers_report (ms : list message) :
  omap (λ l, match l with MasterLine r _ => Some r | WorkerLine _ _ => None end)
       (report <$> ms) = msg_source <$> ms.
Proof. induction ms as [|m ms IH]; [done|]. csimpl. by rewrite IH. Qed.

Lemma sources_complete size t w :
  1 ≤ size → inv size t w → finished w = true →
  msg_source <$> recvs t ≡ₚ seq 0 (size - 1).
Proof.
  intros Hsz Hinv Hfin.
  destruct (finished_facts size t w) as (Hwk & _ & _ & _ & Hperm); [done..|].
  rewrite Hperm. apply NoDup_Permutation.
  - by destruct Hinv.
  - apply NoDup_seq.
  - intros r. rewrite elem_of_seq. split.
    + intros (m & -> & Hm)%list_elem_of_fmap.
      destruct (inv_sends _ _ _ Hinv m Hm). lia.
    + intros [_ Hr]. simpl in Hr. destruct (Hwk r Hr) as [Hs _].
      apply list_elem_of_fmap. exists (worker_message size r). split; [done|].
      apply (sends_from_elem r). rewrite Hs. by apply list_elem_of_singleton.
Qed.

Lemma master_first_step size (g0 : nat → rng) :
  1 ≤ size →
  ∃ w, exec size (init size g0) [(size - 1, 0)] = Some ([EvBranch (size - 1)], w) ∧
       procs w !! (size - 1) = Some (MasterRecv 0).
Proof.
  intros Hsz. eexists. simpl. unfold step.
  assert (procs (init size g0) !! (size - 1) = Some (Start (g0 (size - 1)))) as Hp.
  { simpl. rewrite list_lookup_fmap, lookup_seq_lt by lia. done. }
  rewrite Hp, Nat.ltb_irrefl. split; [reflexivity|]. simpl.
  apply list_lookup_insert_eq. rewrite length_fmap, length_seq. lia.
Qed.

(** X4.  [source=MPI.ANY_SOURCE] leaves the order of the master's lines
    open and nothing else: the sequences of worker ids the master can print
    in a complete run are exactly the permutations of [0 .. size - 2]. *)
Theorem master_report_orders size (g0 : nat → rng) (π : list nat) :
  1 ≤ size →
  (∃ sched t w,
     exec size (init size g0) sched = Some (t, w) ∧ finished w = true ∧
     reported_workers size t = π) ↔
  π ≡ₚ seq 0 (size - 1).
Proof.
  intros Hsz. split.
  - intros (sched & t & w & He & Hfin & <-).
    pose proof (run_inv _ _ _ _ _ He) as Hinv.
    destruct (finished_facts size t w) as (_ & _ & Hout & _); [done..|].
    unfold reported_workers. rewrite Hout, reported_workers_report.
    by eapply sources_complete.
  - intros Hperm.
    destruct (master_first_step size g0 Hsz) as (w0 & He0 & Hp0).
    pose proof (run_inv _ _ _ _ _ He0) as Hinv0.
    destruct (deliver_all size π [EvBranch (size - 1)] w0 0)
      as (s1 & t1 & w1 & He1 & Hr1 & Hp1); [done|done| | | |].
    { by rewrite Hperm, length_seq. }
    { rewrite Hperm. apply NoDup_seq. }
    { intros r Hr. rewrite Hperm in Hr. apply elem_of_seq in Hr. simpl.
      split; [lia|]. apply not_elem_of_nil. }
    pose proof (exec_app _ _ _ _ _ _ _ _ He0 He1) as He01.
    pose proof (run_inv _ _ _ _ _ He01) as Hinv1.
    destruct (completion size (total_fuel size w1) _ w1 Hinv1)
      as (s2 & t2 & w2 & He2 & Hfin); [done|].
    pose proof (exec_app _ _ _ _ _ _ _ _ He01 He2) as He012.
    pose proof (run_inv _ _ _ _ _ He012) as Hinv2.
    eexists _, _, w2. split; [exact He012|]. split; [done|].
    destruct (finished_facts size _ w2 Hsz Hinv2 Hfin) as (_ & Hlen & Hout & _).
    unfold reported_workers. rewrite Hout, reported_workers_report.
    rewrite !recvs_app, Hr1 in Hlen |- *. simpl in Hlen |- *.
    rewrite length_app, length_fmap, Hperm, length_seq in Hlen.
    assert (recvs t2 = []) as -> by (apply length_zero_iff_nil; lia).
    rewrite app_nil_r, <-list_fmap_compose. simpl.
    rewrite <-(list_fmap_id π) at 2. by apply list_fmap_ext.
Qed.
End MoreProofs.

(** ** The two-process examples *)

Section P2PProofs.
Implicit Types (size rank r : nat) (t : list p2p_event) (w : p2p_world).

Lemma p2p_printed_snoc r t e :
  p2p_printed r (t ++ [e]) =
  p2p_printed r t ++ match e with
                     | EPrint r' l => if decide (r' = r) then [l] else []
                     | _ => []
                     end.
Proof.
  unfold p2p_printed. rewrite omap_app. destruct e; simpl; try done.
  by case_decide.
Qed.

(** Ranks above 1 have an empty script. *)
Lemma idle_ranks script size :
  (∀ r, 2 ≤ r → script r = []) →
  2 ≤ size →
  p2p_init script size =
  P2P (Running (script 0) None :: Running (script 1) None ::
       replicate (size - 2) (Running [] None)) [].
Proof.
  intros Hidle Hsz. unfold p2p_init. f_equal.
  destruct size as [|[|n]]; [lia..|]. simpl. do 2 f_equal.
  rewrite Nat.sub_0_r. apply list_eq. intros i.
  rewrite list_lookup_fmap.
  destruct (decide (i < n)) as [Hi|Hi].
  - rewrite lookup_seq_lt, lookup_replicate_2 by done. simpl.
    by rewrite Hidle by lia.
  - rewrite lookup_seq_ge by lia. symmetry. apply lookup_replicate_None. lia.
Qed.

Lemma idle_step size w rank p0 p1 n net :
  p2p_step size (P2P (p0 :: p1 :: replicate n (Running [] None)) net) (S (S rank))
  = None.
Proof.
  unfold p2p_step. simpl.
  destruct (replicate n (Running [] None) !! rank) as [p|] eqn:Hp; [|done].
  apply lookup_replicate in Hp as [-> _]. done.
Qed.

Lemma forallb_replicate {A} (f : A → bool) n x :
  f x = true → forallb f (replicate n x) = true.
Proof. intros Hx. induction n as [|n IH]; simpl; [done|]. by rewrite Hx. Qed.

Lemma existsb_replicate {A} (f : A → bool) n x :
  f x = false → existsb f (replicate n x) = false.
Proof. intros Hx. induction n as [|n IH]; simpl; [done|]. by rewrite Hx. Qed.

Lemma p2p_exec_length size sched : ∀ w t w',
  p2p_exec size w sched = Some (t, w') → length t = length sched.
Proof.
  induction sched as [|rank sched IH]; intros w t w' He; simplify_eq/=; [done|].
  destruct (p2p_step size w rank) as [[e w1]|]; [|done].
  destruct (p2p_exec size w1 sched) as [[t1 w2]|] eqn:He1; simplify_eq/=.
  f_equal. by eapply IH.
Qed.

(** One process alone: no script that starts with a send to rank 1 gets to
    its end. *)
Lemma p2p_alone script sched t w :
  (∃ v rest, script 0 = Assign v :: SendObj 1 :: rest ∨
             script 0 = Assign v :: SendBuf 1 :: rest) →
  p2p_exec 1 (p2p_init script 1) sched = Some (t, w) → p2p_done w = false.
Proof.
  intros (v & rest & Hscript) He. unfold p2p_init in He. simpl in He.
  destruct sched as [|[|?] [|[|?] [|[|?] ?]]];
    destruct Hscript as [Hs|Hs]; rewrite Hs in He;
    try destruct v; vm_compute in He; by simplify_eq.
Qed.

Lemma p2p_done_two p0 p1 n net :
  p2p_done (P2P (p0 :: p1 :: replicate n (Running [] None)) net) =
  p2p_done (P2P [p0; p1] net).
Proof.
  unfold p2p_done. cbn [p2p_procs forallb].
  rewrite forallb_replicate by done. by rewrite !andb_true_r.
Qed.

Lemma p2p_failed_two p0 p1 n net :
  p2p_failed (P2P (p0 :: p1 :: replicate n (Running [] None)) net) =
  p2p_failed (P2P [p0; p1] net).
Proof.
  unfold p2p_failed. cbn [p2p_procs existsb].
  rewrite existsb_replicate by done. by rewrite !orb_false_r.
Qed.

(** Case analysis on the number of calls made, which is at most six. *)
Ltac numerals n :=
  do 7 (try destruct n as [|n]); try lia.

Ltac close_p2p_inv Hlen Hp0 Hp1 Hpr :=
  split_and!;
  [ lia | lia | vm_compute; lia | vm_compute; reflexivity
  | rewrite length_app, Hlen; simpl; lia
  | rewrite p2p_printed_snoc, Hp0; reflexivity
  | rewrite p2p_printed_snoc, Hp1; reflexivity
  | let r := fresh "r" in let Hr := fresh "Hr" in
    intros r Hr; rewrite p2p_printed_snoc, Hpr by done;
    destruct r as [|[|r]]; [lia|lia|reflexivity] ].

(** The invariant of example 2 is kept by every step. *)
Lemma np_step_inv junk_i junk_f size t w rank e w' :
  2 ≤ size →
  np_inv junk_i junk_f size t w →
  p2p_step size w rank = Some (e, w') →
  np_inv junk_i junk_f size (t ++ [e]) w'.
Proof.
  intros Hsz (n0 & n1 & H0 & H1 & Hle & -> & Hlen & Hp0 & Hp1 & Hpr) Hs.
  destruct size as [|[|n]]; [lia..|]. unfold np_inv.
  replace (S (S n) - 2) with n in * by lia.
  destruct rank as [|[|rank]].
  - exists (S n0), n1. numerals n0; numerals n1;
      vm_compute in Hle; try lia; vm_compute in Hs; simplify_eq;
      close_p2p_inv Hlen Hp0 Hp1 Hpr.
  - exists n0, (S n1). numerals n0; numerals n1;
      vm_compute in Hle; try lia; vm_compute in Hs; simplify_eq;
      close_p2p_inv Hlen Hp0 Hp1 Hpr.
  - by rewrite idle_step in Hs.
Qed.

Lemma np_init_inv junk_i junk_f size :
  2 ≤ size → np_inv junk_i junk_f size [] (p2p_init (send_np_array junk_i junk_f) size).
Proof.
  intros Hsz. exists 0, 0. split_and!; try done; try lia.
  apply idle_ranks; [|done]. intros r Hr. by destruct r as [|[|r]]; [lia..|].
Qed.

Lemma np_exec_inv junk_i junk_f size sched : ∀ t0 w t w',
  2 ≤ size → np_inv junk_i junk_f size t0 w →
  p2p_exec size w sched = Some (t, w') → np_inv junk_i junk_f size (t0 ++ t) w'.
Proof.
  induction sched as [|rank sched IH]; intros t0 w t w' Hsz Hinv He; simplify_eq/=.
  - by rewrite app_nil_r.
  - destruct (p2p_step size w rank) as [[e w1]|] eqn:Hs; [|done].
    destruct (p2p_exec size w1 sched) as [[t1 w2]|] eqn:He1; simplify_eq.
    rewrite (assoc (++) t0 [e] t1). eapply IH; [done| |done].
    by eapply np_step_inv.
Qed.

(** X6.  Example 2 (two NumPy arrays sent with [Send] / [Recv]) needs two
    processes and then always works: a complete run exists exactly when
    [size ≥ 2]; with [size ≥ 2], under every interleaving, no call fails
    (in particular the receive of ten ints is never matched with the ten
    doubles, although both messages can be in flight together), a process
    can always move until all are done, a run has at most 12 steps, and in
    a complete run rank 0 has printed the two arrays it sent and rank 1
    the same two arrays, in the same order, whatever [np.empty] held;
    ranks above 1 print nothing. *)
Theorem send_np_array_runs junk_i junk_f size :
  1 ≤ size →
  ((∃ sched t w,
      p2p_exec size (p2p_init (send_np_array junk_i junk_f) size) sched = Some (t, w) ∧
      p2p_done w = true) ↔ 2 ≤ size) ∧
  (2 ≤ size → ∀ sched t w,
     p2p_exec size (p2p_init (send_np_array junk_i junk_f) size) sched = Some (t, w) →
     p2p_failed w = false ∧
     length t ≤ 12 ∧
     (p2p_done w = false → ∃ rank e w', p2p_step size w rank = Some (e, w')) ∧
     (p2p_done w = true →
        length t = 12 ∧
        p2p_printed 0 t = [Sended (arange10 Int32) 0; Sended (arange10 Float64) 0] ∧
        p2p_printed 1 t =
          [Received (arange10 Int32) 1; Received (arange10 Float64) 1]) ∧
     (∀ r, 2 ≤ r → p2p_printed r t = [])).
Proof.
  intros Hsz. split.
  - split.
    + intros (sched & t & w & He & Hdone).
      destruct (decide (2 ≤ size)) as [|Hlt]; [done|].
      assert (size = 1) as -> by lia.
      eapply p2p_alone in He; [congruence|].
      eexists _, _. right. reflexivity.
    + intros H2. exists [0; 0; 0; 0; 0; 0; 1; 1; 1; 1; 1; 1].
      rewrite idle_ranks; [|by intros [|[|r]] ?; [lia..|]|done].
      destruct size as [|[|n]]; [lia..|].
      replace (S (S n) - 2) with n by lia.
      eexists _, (P2P (np_sender junk_i junk_f 6 :: np_receiver junk_i junk_f 6 ::
                       replicate n (Running [] None)) []).
      split; [vm_compute; reflexivity|].
      by rewrite p2p_done_two.
  - intros H2 sched t w He.
    pose proof (np_exec_inv _ _ _ _ [] _ _ _ H2 (np_init_inv junk_i junk_f size H2) He)
      as (n0 & n1 & H0 & H1 & Hle & -> & Hlen & Hp0 & Hp1 & Hpr).
    simpl in Hlen, Hp0, Hp1, Hpr.
    destruct size as [|[|n]]; [lia..|].
    replace (S (S n) - 2) with n in * by lia.
    split_and!.
    + rewrite p2p_failed_two. clear Hp0 Hp1 Hlen He.
      by numerals n0; numerals n1.
    + lia.
    + intros Hnd. rewrite p2p_done_two in Hnd.
      clear Hp0 Hp1 Hlen He.
      numerals n0; numerals n1; vm_compute in Hle; try lia;
        vm_compute in Hnd; try done;
        first [ by (exists 0; eexists _, _; vm_compute; reflexivity)
              | by (exists 1; eexists _, _; vm_compute; reflexivity) ].
    + intros Hd. rewrite p2p_done_two in Hd.
      numerals n0; numerals n1; vm_compute in Hd; try done.
    + done.
Qed.

(** The invariant of example 1 is kept by every step. *)
Lemma obj_step_inv size t w rank e w' :
  2 ≤ size →
  obj_inv size t w →
  p2p_step size w rank = Some (e, w') →
  obj_inv size (t ++ [e]) w'.
Proof.
  intros Hsz (n0 & n1 & H0 & H1 & Hle & -> & Hlen & Hp0 & Hp1 & Hpr) Hs.
  destruct size as [|[|n]]; [lia..|]. unfold obj_inv.
  replace (S (S n) - 2) with n in * by lia.
  destruct rank as [|[|rank]].
  - exists (S n0), n1. numerals n0; numerals n1;
      vm_compute in Hs; simplify_eq;
      (split_and!;
       [ lia | lia | lia | vm_compute; reflexivity
       | rewrite length_app, Hlen; simpl; lia
       | rewrite p2p_printed_snoc, Hp0; reflexivity
       | rewrite p2p_printed_snoc, Hp1; reflexivity
       | intros r Hr; rewrite p2p_printed_snoc, Hpr by done;
         destruct r as [|[|r]]; [lia|lia|reflexivity] ]).
  - exists n0, (S n1). numerals n0; numerals n1;
      vm_compute in Hs; simplify_eq;
      (split_and!;
       [ lia | lia | lia | vm_compute; reflexivity
       | rewrite length_app, Hlen; simpl; lia
       | rewrite p2p_printed_snoc, Hp0; reflexivity
       | rewrite p2p_printed_snoc, Hp1; reflexivity
       | intros r Hr; rewrite p2p_printed_snoc, Hpr by done;
         destruct r as [|[|r]]; [lia|lia|reflexivity] ]).
  - by rewrite idle_step in Hs.
Qed.

Lemma obj_init_inv size : 2 ≤ size → obj_inv size [] (p2p_init send_py_object size).
Proof.
  intros Hsz. exists 0, 0. split_and!; try done; try lia.
  apply idle_ranks; [|done]. intros r Hr. by destruct r as [|[|r]]; [lia..|].
Qed.

Lemma obj_exec_inv size sched : ∀ t0 w t w',
  2 ≤ size → obj_inv size t0 w →
  p2p_exec size w sched = Some (t, w') → obj_inv size (t0 ++ t) w'.
Proof.
  induction sched as [|rank sched IH]; intros t0 w t w' Hsz Hinv He; simplify_eq/=.
  - by rewrite app_nil_r.
  - destruct (p2p_step size w rank) as [[e w1]|] eqn:Hs; [|done].
    destruct (p2p_exec size w1 sched) as [[t1 w2]|] eqn:He1; simplify_eq.
    rewrite (assoc (++) t0 [e] t1). eapply IH; [done| |done].
    by eapply obj_step_inv.
Qed.

(** X5.  Example 1 (a pickled dict sent with [send] / [recv]) needs two
    processes and then always works: a complete run exists exactly when
    [size ≥ 2] (alone, rank 0 fails at its send to rank 1); with
    [size ≥ 2], under every interleaving, no call fails, a process can
    always move until all are done, a run has at most 5 steps, and in a
    complete run rank 1 has printed the very object rank 0 printed as
    sent; ranks above 1 print nothing. *)
Theorem send_py_object_runs size :
  1 ≤ size →
  ((∃ sched t w,
      p2p_exec size (p2p_init send_py_object size) sched = Some (t, w) ∧
      p2p_done w = true) ↔ 2 ≤ size) ∧
  (2 ≤ size → ∀ sched t w,
     p2p_exec size (p2p_init send_py_object size) sched = Some (t, w) →
     p2p_failed w = false ∧
     length t ≤ 5 ∧
     (p2p_done w = false → ∃ rank e w', p2p_step size w rank = Some (e, w')) ∧
     (p2p_done w = true →
        length t = 5 ∧
        p2p_printed 0 t = [Sended the_dict 0] ∧
        p2p_printed 1 t = [Received the_dict 1]) ∧
     (∀ r, 2 ≤ r → p2p_printed r t = [])).
Proof.
  intros Hsz. split.
  - split.
    + intros (sched & t & w & He & Hdone).
      destruct (decide (2 ≤ size)) as [|Hlt]; [done|].
      assert (size = 1) as -> by lia.
      eapply p2p_alone in He; [congruence|].
      eexists _, _. left. reflexivity.
    + intros H2. exists [0; 0; 0; 1; 1].
      rewrite idle_ranks; [|by intros [|[|r]] ?; [lia..|]|done].
      destruct size as [|[|n]]; [lia..|].
      replace (S (S n) - 2) with n by lia.
      eexists _, (P2P (obj_sender 3 :: obj_receiver 2 ::
                       replicate n (Running [] None)) []).
      split; [vm_compute; reflexivity|].
      by rewrite p2p_done_two.
  - intros H2 sched t w He.
    pose proof (obj_exec_inv _ _ [] _ _ _ H2 (obj_init_inv size H2) He)
      as (n0 & n1 & H0 & H1 & Hle & -> & Hlen & Hp0 & Hp1 & Hpr).
    simpl in Hlen, Hp0, Hp1, Hpr.
    destruct size as [|[|n]]; [lia..|].
    replace (S (S n) - 2) with n in * by lia.
    split_and!.
    + rewrite p2p_failed_two. clear Hp0 Hp1 Hlen He.
      by numerals n0; numerals n1.
    + lia.
    + intros Hnd. rewrite p2p_done_two in Hnd.
      clear Hp0 Hp1 Hlen He.
      numerals n0; numerals n1;
        vm_compute in Hnd; try done;
        first [ by (exists 0; eexists _, _; vm_compute; reflexivity)
              | by (exists 1; eexists _, _; vm_compute; reflexivity) ].
    + intros Hd. rewrite p2p_done_two in Hd.
      numerals n0; numerals n1; vm_compute in Hd; try done.
    + done.
Qed.
End P2PProofs.

(** ** The set-up cell *)

Section SetupCellProofs.
Context `{FileSystem}.
Implicit Types (cwd : string) (env : run_env) (m : machine).

(** With the folder in place a run touches neither network nor disk. *)
Lemma setup_cell_skip cwd env m :
  path_exists (folder_of cwd) (files m) = true →
  setup_cell cwd env m =
    if ray_starts env
    then ([RayShutdown; RayInit; PrintExists (folder_of cwd)],
          Machine true (files m), None)
    else ([RayShutdown; RayInit], Machine false (files m), Some RayInitError).
Proof.
  unfold setup_cell, folder_of. simpl. intros ->.
  by destruct (ray_starts env).
Qed.

Lemma reruns_skip cwd envs : ∀ m,
  path_exists (folder_of cwd) (files m) = true →
  (reruns cwd envs m).1 =
    (λ env, if ray_starts env
            then ([RayShutdown; RayInit; PrintExists (folder_of cwd)], None)
            else ([RayShutdown; RayInit], Some RayInitError)) <$> envs ∧
  files (reruns cwd envs m).2 = files m.
Proof.
  induction envs as [|env envs IH]; intros m Hm; [done|]. simpl.
  rewrite setup_cell_skip by done.
  destruct (ray_starts env).
  - destruct (IH (Machine true (files m)) Hm) as [IH1 IH2].
    destruct (reruns cwd envs (Machine true (files m))) as [rest m2].
    simpl in *. by rewrite IH1, IH2.
  - destruct (IH (Machine false (files m)) Hm) as [IH1 IH2].
    destruct (reruns cwd envs (Machine false (files m))) as [rest m2].
    simpl in *. by rewrite IH1, IH2.
Qed.

(** The first run, case by case. *)
Lemma setup_cell_cases cwd env m :
  let first := setup_cell cwd env m in
  (path_exists (folder_of cwd) (files first.1.2) = false →
     is_Some first.2 ∧ files first.1.2 = files m ∧
     first.2 ≠ Some URLError ∧ first.2 ≠ Some OpenError ∧
     first.2 ≠ Some CopyError) ∧
  (first.2 = Some URLError →
     read_file (parquet_of cwd) (files first.1.2) =
       read_file (parquet_of cwd) (files m)) ∧
  (first.2 = Some CopyError →
     ∃ part, fetch env download_url = Interrupted part ∧
       read_file (parquet_of cwd) (files first.1.2) = Some part) ∧
  (first.2 = None → path_exists (folder_of cwd) (files m) = false →
     ∃ body, fetch env download_url = Complete body ∧
       read_file (parquet_of cwd) (files first.1.2) = Some body).
Proof.
  unfold setup_cell. simpl. fold (folder_of cwd). fold (parquet_of cwd).
  destruct (ray_starts env); simpl; [|by split_and!].
  destruct (path_exists (folder_of cwd) (files m)) eqn:Hex; simpl.
  { split_and!; try done. by rewrite Hex. }
  destruct (makedirs (folder_of cwd) (files m)) as [d1|] eqn:Hmk; simpl.
  2:{ by split_and!. }
  pose proof (exists_makedirs _ _ _ Hmk) as Hex1.
  pose proof (read_makedirs _ (parquet_of cwd) _ _ Hex Hmk) as Hrd1.
  destruct (fetch env download_url) as [|part|body]; simpl.
  - split_and!; try done. by rewrite Hex1.
  - destruct (write_file (parquet_of cwd) part d1) as [d2|] eqn:Hwr; simpl.
    + split_and!; try done.
      * by rewrite (exists_write_file _ _ _ _ _ Hwr Hex1).
      * intros _. exists part. split; [done|]. by eapply read_write_file.
    + split_and!; try done. by rewrite Hex1.
  - destruct (write_file (parquet_of cwd) body d1) as [d2|] eqn:Hwr; simpl.
    + split_and!; try done.
      * by rewrite (exists_write_file _ _ _ _ _ Hwr Hex1).
      * intros _ _. exists body. split; [done|]. by eapply read_write_file.
    + split_and!; try done. by rewrite Hex1.
Qed.

End SetupCellProofs.

(** ** The training function *)

Section TrainFuncProofs.
Context `{Training}.
Implicit Types (s : train_state) (bs : list batch) (ws wr : nat)
  (t : list train_event).

Lemma trained_app t1 t2 : trained (t1 ++ t2) = trained t1 ++ trained t2.
Proof. apply omap_app. Qed.

Lemma reported_app t1 t2 : reported (t1 ++ t2) = reported t1 ++ reported t2.
Proof. apply omap_app. Qed.

Lemma stdout_app t1 t2 : stdout (t1 ++ t2) = stdout t1 ++ stdout t2.
Proof. apply omap_app. Qed.

Lemma replay_snoc p0 bs b :
  replay p0 (bs ++ [b]) =
    let '(l, p) := train_step (replay p0 bs).1 b in (p, Some l).
Proof. unfold replay. by rewrite foldl_app. Qed.

(** Where an event of a log extended by one event can be. *)
Lemma snoc_eq_middle {A} (l : list A) (e : A) pre x post :
  l ++ [e] = pre ++ x :: post →
  (∃ post', post = post' ++ [e] ∧ l = pre ++ x :: post') ∨
  (post = [] ∧ l = pre ∧ e = x).
Proof.
  destruct post as [|y post _] using rev_ind.
  - intros [-> ->]%app_inj_tail. by right.
  - rewrite app_comm_cons, (assoc (++)). intros [-> ->]%app_inj_tail.
    left. by exists post.
Qed.

(** An event that is no report keeps the reports as they are. *)
Lemma reports_snoc p0 t e :
  (∀ m c, e ≠ Reported m c) →
  (∀ pre m c post, t = pre ++ Reported m c :: post →
     report_of_last_step p0 pre m c) →
  ∀ pre m c post, t ++ [e] = pre ++ Reported m c :: post →
    report_of_last_step p0 pre m c.
Proof.
  intros Hne Hall pre m c post
    [(post' & -> & ->)|(-> & -> & ->)]%snoc_eq_middle.
  - by eapply Hall.
  - by destruct (Hne m c).
Qed.

(** One pass over the batches. *)
Lemma batches_inv wr p0 bs : ∀ s,
  train_inv wr p0 s →
  let s' := foldl batch_body s bs in
  train_inv wr p0 s' ∧ log s' = log s ++ (Trained <$> bs) ∧
  train_loader s' = train_loader s ∧
  (bs ≠ [] → is_Some (loss s')) ∧
  (is_Some (loss s) → is_Some (loss s')).
Proof.
  induction bs as [|b bs IH]; intros s Hinv; simpl.
  - rewrite app_nil_r. by split_and!.
  - assert (train_inv wr p0 (batch_body s b) ∧ is_Some (loss (batch_body s b)) ∧
            log (batch_body s b) = log s ++ [Trained b] ∧
            train_loader (batch_body s b) = train_loader s)
      as (Hb & Hl & Hlog & Hld).
    { destruct Hinv as (Hrep & Hall & Hout). unfold batch_body.
      destruct (train_step (model s) b) as [l p] eqn:Hstep. simpl.
      split; [|split; [by eexists|done]].
      split_and!; simpl.
      - rewrite trained_app. change (trained [Trained b]) with [b].
        rewrite replay_snoc, Hrep. simpl. by rewrite Hstep.
      - by apply reports_snoc.
      - rewrite stdout_app, reported_app. simpl. by rewrite !app_nil_r. }
    destruct (IH _ Hb) as (Hinv' & Hlog' & Hld' & _ & Hsome).
    split_and!; [done| |congruence|auto|auto].
    by rewrite Hlog', Hlog, <-(assoc (++)).
Qed.

(** The report and the print that end an epoch. *)
Lemma report_inv wr p0 s l e :
  train_inv wr p0 s → loss s = Some l →
  let log1 := log s ++ [Reported (Metrics l e) (save_checkpoint (model s))] in
  let log2 := if wr =? 0 then log1 ++ [Printed (Metrics l e)] else log1 in
  train_inv wr p0 (TrainState (model s) (train_loader s) (loss s) log2) ∧
  reported log2 = reported (log s) ++ [(Metrics l e, save_checkpoint (model s))].
Proof.
  intros (Hrep & Hall & Hout) Hl log1 log2.
  assert (∀ pre m c post, log1 = pre ++ Reported m c :: post →
            report_of_last_step p0 pre m c) as Hall1.
  { unfold log1.
    intros pre m c post [(post' & _ & Heq)|(_ & Heq & Hev)]%snoc_eq_middle.
    - by eapply Hall.
    - injection Hev as <- <-. unfold report_of_last_step.
      rewrite <-Heq, Hrep. simpl. by rewrite Hl. }
  assert (trained log1 = trained (log s)) as Ht1.
  { unfold log1. rewrite trained_app. simpl. by rewrite app_nil_r. }
  assert (reported log1 =
            reported (log s) ++ [(Metrics l e, save_checkpoint (model s))]) as Hr1.
  { unfold log1. by rewrite reported_app. }
  assert (stdout log1 = stdout (log s)) as Ho1.
  { unfold log1. rewrite stdout_app. simpl. by rewrite app_nil_r. }
  subst log2. destruct (wr =? 0) eqn:Hwr.
  - split; [|rewrite reported_app; simpl; by rewrite app_nil_r].
    split_and!; simpl.
    + rewrite trained_app. simpl. by rewrite app_nil_r, Ht1.
    + by apply reports_snoc.
    + rewrite stdout_app, reported_app, Ho1, Hr1, Hout, Hwr. simpl.
      by rewrite app_nil_r, fmap_app.
  - split; [|done]. split_and!; simpl; [by rewrite Ht1|done|].
    by rewrite Ho1, Hout, Hwr.
Qed.

(** With more than one worker, an epoch that starts with [loss] bound
    cannot fail. *)
Lemma epoch_body_bound ws wr p0 e s :
  1 < ws → train_inv wr p0 s → is_Some (loss s) →
  ∃ s', epoch_body ws wr e s = (s', None) ∧ train_inv wr p0 s' ∧
        is_Some (loss s') ∧
        (m_epoch ∘ fst) <$> reported (log s') =
          ((m_epoch ∘ fst) <$> reported (log s)) ++ [e].
Proof.
  intros Hws Hinv Hl. unfold epoch_body, model_module.
  apply Nat.ltb_lt in Hws. rewrite Hws.
  destruct (one_pass _) as [bs ld'].
  set (s0 := TrainState (model s) ld' (loss s) (log s)).
  assert (train_inv wr p0 s0) as Hinv0 by done.
  destruct (batches_inv wr p0 bs s0 Hinv0) as (Hinv1 & Hlog & _ & _ & Hsome).
  destruct (loss (foldl batch_body s0 bs)) as [l|] eqn:Hloss.
  2:{ destruct (Hsome Hl) as [? ?]. done. }
  destruct (report_inv wr p0 _ l e Hinv1 Hloss) as [Hinv2 Hr2].
  rewrite Hloss in Hinv2.
  eexists. split; [done|]. split; [exact Hinv2|]. split; [by eexists|].
  cbn [log]. rewrite Hr2, fmap_app, Hlog, reported_app. simpl.
  replace (reported (Trained <$> bs)) with (@nil (metrics * checkpoint)).
  - by rewrite app_nil_r.
  - clear. by induction bs.
Qed.

Lemma epochs_bound ws wr p0 es : ∀ s,
  1 < ws → train_inv wr p0 s → is_Some (loss s) →
  ∃ s', epochs ws wr es s = (s', None) ∧ train_inv wr p0 s' ∧
        (m_epoch ∘ fst) <$> reported (log s') =
          ((m_epoch ∘ fst) <$> reported (log s)) ++ es.
Proof.
  induction es as [|e es IH]; intros s Hws Hinv Hl; simpl.
  - exists s. by rewrite app_nil_r.
  - destruct (epoch_body_bound ws wr p0 e s Hws Hinv Hl)
      as (s1 & -> & Hinv1 & Hl1 & Hr1).
    destruct (IH s1 Hws Hinv1 Hl1) as (s2 & -> & Hinv2 & Hr2).
    exists s2. split_and!; [done..|]. by rewrite Hr2, Hr1, <-(assoc (++)).
Qed.

(** The first epoch decides. *)
Lemma epoch_body_first ws wr p0 ld0 :
  let s0 := TrainState p0 ld0 None [] in
  let bs := first_pass ws ld0 in
  (bs = [] →
     ∃ s', epoch_body ws wr 0 s0 = (s', Some UnboundLocalError) ∧
           model s' = p0 ∧ log s' = []) ∧
  (bs ≠ [] → ws ≤ 1 →
     ∃ s', epoch_body ws wr 0 s0 = (s', Some AttributeError) ∧
           model s' = (replay p0 bs).1 ∧ log s' = Trained <$> bs) ∧
  (bs ≠ [] → 1 < ws →
     ∃ s', epoch_body ws wr 0 s0 = (s', None) ∧ train_inv wr p0 s' ∧
           is_Some (loss s') ∧ (m_epoch ∘ fst) <$> reported (log s') = [0]).
Proof.
  intros s0 bs. subst bs. unfold first_pass, epoch_body. cbn [train_loader s0].
  destruct (one_pass _) as [bs ld']. simpl.
  set (s1 := TrainState p0 ld' None []).
  assert (train_inv wr p0 s1) as Hinv1.
  { split_and!; simpl; [done| |by destruct (wr =? 0)].
    intros pre m c post Heq. by destruct pre. }
  destruct (batches_inv wr p0 bs s1 Hinv1) as (Hinv & Hlog & _ & Hcons & _).
  change (log s1 ++ (Trained <$> bs)) with (Trained <$> bs) in Hlog.
  assert (reported (Trained <$> bs) = @nil (metrics * checkpoint)) as Hnorep.
  { clear. by induction bs. }
  assert (trained (Trained <$> bs) = bs) as Htr.
  { clear. induction bs as [|b bs IH]; [done|]. csimpl. unfold trained in *. csimpl. by rewrite IH. }
  split_and!.
  - intros ->. simpl. by eexists.
  - intros Hne Hws. destruct (Hcons Hne) as [l Hloss]. rewrite Hloss.
    unfold model_module. apply Nat.ltb_ge in Hws. rewrite Hws.
    eexists. split; [done|]. split; [|done].
    destruct Hinv as (Hrep & _). rewrite Hlog, Htr in Hrep. by rewrite Hrep.
  - intros Hne Hws. destruct (Hcons Hne) as [l Hloss]. rewrite Hloss.
    unfold model_module. apply Nat.ltb_lt in Hws. rewrite Hws.
    destruct (report_inv wr p0 _ l 0 Hinv Hloss) as [Hinv2 Hr2].
    rewrite Hloss in Hinv2.
    eexists. split; [done|]. split; [exact Hinv2|]. split; [by eexists|].
    cbn [log]. by rewrite Hr2, fmap_app, Hlog, Hnorep.
Qed.

(** X8.  How [train_func] ends.  When the first pass over the data
    loader yields no batch, [loss] is unbound at the first [loss.item()]:
    nothing has been trained, reported or printed.  Otherwise, with a
    single worker the model is not wrapped, [model.module] fails in the
    first epoch: the worker has trained on the batches of the first pass
    and has reported and printed nothing.  Otherwise, with more than one
    worker, the function returns after exactly ten reports, for the epochs
    0 to 9 in this order, even if later passes are empty; the worker of
    world rank 0 has printed the metrics of these ten reports and every
    other worker has printed nothing. *)
Theorem train_func_outcome ws wr (p0 : params) (ld0 : data_loader) :
  let result := train_func ws wr p0 ld0 in
  (first_pass ws ld0 = [] →
     result.2 = Some UnboundLocalError ∧
     model result.1 = p0 ∧ log result.1 = []) ∧
  (first_pass ws ld0 ≠ [] → ws ≤ 1 →
     result.2 = Some AttributeError ∧
     model result.1 = (replay p0 (first_pass ws ld0)).1 ∧
     log result.1 = Trained <$> first_pass ws ld0) ∧
  (first_pass ws ld0 ≠ [] → 1 < ws →
     result.2 = None ∧
     (m_epoch ∘ fst) <$> reported (log result.1) = seq 0 10 ∧
     stdout (log result.1) =
       (if wr =? 0 then fst <$> reported (log result.1) else [])).
Proof.
  intros result. subst result. unfold train_func.
  change (seq 0 10) with (0 :: seq 1 9). cbn [epochs].
  destruct (epoch_body_first ws wr p0 ld0) as (Hemp & Hone & Hmany).
  split_and!.
  - intros Hfp. by destruct (Hemp Hfp) as (s' & -> & ? & ?).
  - intros Hfp Hws. by destruct (Hone Hfp Hws) as (s' & -> & ? & ?).
  - intros Hfp Hws. destruct (Hmany Hfp Hws) as (s1 & -> & Hinv1 & Hl1 & Hr1).
    destruct (epochs_bound ws wr p0 (seq 1 9) s1 Hws Hinv1 Hl1)
      as (s2 & -> & Hinv2 & Hr2).
    simpl. split_and!; [done| |by destruct Hinv2 as (_ & _ & ?)].
    by rewrite Hr2, Hr1.
Qed.

(** X9.  Every report of [train_func] is of the last optimisation step
    made before it: its loss is the loss of the last batch trained on
    before the report, and its checkpoint holds the parameters reached by
    training from the initial parameters on all the batches before the
    report, in order (also when the epoch's own pass was empty and the
    loss is left from an earlier epoch). *)
Theorem train_func_reports_last_step ws wr (p0 : params) (ld0 : data_loader)
    pre m c post :
  log (train_func ws wr p0 ld0).1 = pre ++ Reported m c :: post →
  (replay p0 (trained pre)).2 = Some (m_loss m) ∧
  c = save_checkpoint (replay p0 (trained pre)).1.
Proof.
  unfold train_func. change (seq 0 10) with (0 :: seq 1 9). cbn [epochs].
  destruct (epoch_body_first ws wr p0 ld0) as (Hemp & Hone & Hmany).
  destruct (decide (first_pass ws ld0 = [])) as [Hfp|Hfp].
  { destruct (Hemp Hfp) as (s' & -> & _ & Hlog). simpl. rewrite Hlog.
    by destruct pre. }
  destruct (decide (1 < ws)) as [Hws|Hws].
  - destruct (Hmany Hfp Hws) as (s1 & -> & Hinv1 & Hl1 & Hr1).
    destruct (epochs_bound ws wr p0 (seq 1 9) s1 Hws Hinv1 Hl1)
      as (s2 & -> & Hinv2 & Hr2).
    simpl. destruct Hinv2 as (_ & Hall & _). apply Hall.
  - destruct (Hone Hfp ltac:(lia)) as (s' & -> & _ & Hlog). simpl.
    rewrite Hlog.
    intros Heq. apply (f_equal reported) in Heq.
    rewrite reported_app in Heq. simpl in Heq.
    replace (reported (Trained <$> first_pass ws ld0))
      with (@nil (metrics * checkpoint)) in Heq.
    + by destruct (reported pre).
    + clear. by induction (first_pass ws ld0).
Qed.
End TrainFuncProofs.

(** ** Checkpoint files *)

Lemma string_length_app (a b : string) :
  String.length (a +:+ b) = String.length a + String.length b.
Proof. induction a as [|c a IH]; simpl; [done|]. by rewrite IH. Qed.

Lemma string_app_cancel_r (a x : string) : ∀ y, x +:+ a = y +:+ a → x = y.
Proof.
  induction x as [|c x IH]; intros [|d y] Heq; simpl in *.
  - done.
  - apply (f_equal String.length) in Heq.
    rewrite !string_length_app in Heq. simpl in Heq.
    rewrite ?string_length_app in Heq. lia.
  - apply (f_equal String.length) in Heq.
    rewrite !string_length_app in Heq. simpl in Heq.
    rewrite ?string_length_app in Heq. lia.
  - injection Heq as -> Heq. f_equal. by apply IH.
Qed.

(** Joining a directory with a relative name loses nothing of the name. *)
Lemma path_join_relative (a b1 b2 : string) :
  starts_with_slash b1 = false → starts_with_slash b2 = false →
  path_join a b1 = path_join a b2 → b1 = b2.
Proof.
  unfold path_join. intros -> ->.
  destruct (String.eqb a "" || ends_with_slash a).
  - apply String.app_inj.
  - intros Heq%String.app_inj. by apply (String.app_inj "/") in Heq.
Qed.

(** X11.  In one checkpoint directory two ranks write to the same file
    only if they are the same rank, and no rank writes to the ["model.pt"]
    of the data-parallel [train_func]. *)
Theorem checkpoint_paths_distinct (dir : string) (r1 r2 : nat) :
  (checkpoint_path dir r1 = checkpoint_path dir r2 ↔ r1 = r2) ∧
  checkpoint_path dir r1 ≠ path_join dir "model.pt".
Proof.
  unfold checkpoint_path. split; [split|].
  - intros Heq%path_join_relative; [|done..].
    unfold checkpoint_file in Heq.
    apply (String.app_inj "model-rank=") in Heq.
    apply string_app_cancel_r in Heq. by apply (inj pretty).
  - by intros ->.
  - intros Heq%path_join_relative; [|done..]. discriminate Heq.
Qed.

(** ** Sizes of the messages of the Master-Worker program *)

Section Bounds.
Context `{NumpyRandom}.
Implicit Types (size r : nat) (t : list event) (w : world) (m : message).

(** Every line of the master reports a message it has received. *)
Lemma master_lines_reports size t w l :
  1 ≤ size → inv size t w → l ∈ printed (size - 1) t →
  ∃ m, m ∈ recvs t ∧ l = report m.
Proof.
  intros Hsz Hinv Hl.
  destruct (lookup_lt_is_Some_2 (procs w) (size - 1)) as [p Hp].
  { rewrite (inv_length _ _ _ Hinv). lia. }
  pose proof (inv_master _ _ _ Hinv p Hp) as Hok.
  assert (∃ ms, printed (size - 1) t = report <$> ms ∧ ∀ m, m ∈ ms → m ∈ recvs t)
    as (ms & Hout & Hsub).
  { destruct p; simpl in Hok; try done.
    - destruct Hok as [_ ->]. exists []. split; [done|].
      by intros ? ?%not_elem_of_nil.
    - destruct Hok as (_ & _ & ->). by exists (recvs t).
    - destruct Hok as (_ & pre & _ & -> & ->). exists pre. split; [done|].
      intros m' ?. apply elem_of_app. by left.
    - destruct Hok as (_ & ->). by exists (recvs t).
    - destruct Hok as (_ & ->). by exists (recvs t). }
  rewrite Hout in Hl. apply list_elem_of_fmap in Hl as (m & -> & Hm).
  exists m. split; [by apply Hsub|done].
Qed.

(** X10.  With a generator that keeps NumPy's contract for [randint]
    (a draw below [high] is in [0, high), [size=n] gives [n] draws), at
    any point of any run every message sent carries fewer than 100
    numbers, each in [0, 100), and every line of the master names a worker
    rank and a count below 100. *)
Theorem worker_message_bounds size (g0 : nat → rng) sched t w :
  (∀ g, 0 ≤ (randint 100 g).1 < 100)%Z →
  (∀ n g, (0 ≤ n)%Z → length (randint_size 100 n g).1 = Z.to_nat n) →
  (∀ n g x, x ∈ (randint_size 100 n g).1 → (0 ≤ x < 100)%Z) →
  1 ≤ size →
  exec size (init size g0) sched = Some (t, w) →
  (∀ m, m ∈ sends t →
     length (msg_data m) < 100 ∧ ∀ x, x ∈ msg_data m → (0 ≤ x < 100)%Z) ∧
  (∀ r c, MasterLine r c ∈ printed (size - 1) t → r < size - 1 ∧ c < 100).
Proof.
  intros Hcount Hlen Hrange Hsz He.
  pose proof (run_inv _ _ _ _ _ He) as Hinv.
  assert (∀ r, length (worker_data r) < 100 ∧
               ∀ x, x ∈ worker_data r → (0 ≤ x < 100)%Z) as Hdata.
  { intros r. unfold worker_data.
    pose proof (Hcount (seed (Z.of_nat r))) as Hc.
    destruct (randint 100 (seed (Z.of_nat r))) as [n g]. simpl in Hc.
    split; [rewrite Hlen by lia; lia|]. intros x. apply Hrange. }
  split.
  - intros m Hm. apply (inv_sends _ _ _ Hinv) in Hm as [_ ->]. apply Hdata.
  - intros r c Hl.
    destruct (master_lines_reports size t w _ Hsz Hinv Hl) as (m & Hm & Heq).
    apply (inv_received _ _ _ _ Hinv) in Hm as [Hsrc Hwm].
    unfold report in Heq. injection Heq as -> ->. split; [done|].
    rewrite Hwm. apply Hdata.
Qed.
End Bounds.

(** The stand-in generator keeps the contract. *)
Lemma lcg_randint_range high (s : Z) :
  (0 < high)%Z → (0 ≤ (lcg_randint high s).1 < high)%Z.
Proof. intros Hh. unfold lcg_randint. simpl. by apply Z.mod_pos_bound. Qed.

Lemma lcg_draws_length high n (s : Z) : length (lcg_draws high n s).1 = n.
Proof.
  revert s. induction n as [|n IH]; intros s; simpl; [done|].
  specialize (IH (lcg_next s)). destruct (lcg_draws high n (lcg_next s)).
  simpl in *. by rewrite IH.
Qed.

Lemma lcg_draws_range high n (s : Z) x :
  (0 < high)%Z → x ∈ (lcg_draws high n s).1 → (0 ≤ x < high)%Z.
Proof.
  intros Hh. revert s. induction n as [|n IH]; intros s; simpl.
  - by intros ?%not_elem_of_nil.
  - specialize (IH (lcg_next s)).
    destruct (lcg_draws high n (lcg_next s)). simpl in *.
    intros [->|Hin]%elem_of_cons; [|by auto].
    by apply Z.mod_pos_bound.
Qed.

(** ** The Master-Worker program on concrete runs *)

#[local] Existing Instance lcg_random.

(** Three processes, the master matching rank 1 first. *)
Lemma master_worker_exchange_witness :
  2 ≤ 3 ∧
  ∃ t w,
    exec 3 (init 3 entropy_a) sched_complete_3 = Some (t, w) ∧
    finished w = true ∧
    length (recvs t) = 2 ∧
    recvs t ≡ₚ sends t ∧
    printed 2 t = [MasterLine 1 (length (worker_data 1));
                   MasterLine 0 (length (worker_data 0))].
Proof.
  split; [lia|].
  destruct (master_worker_exchange 3 entropy_a) as [_ Hall]; [lia|].
  eexists _, _. split; [reflexivity|].
  edestruct (Hall sched_complete_3) as (_ & _ & _ & Hlen & _ & Hperm & _ & Hout);
    [reflexivity|reflexivity|].
  split; [reflexivity|]. split; [exact Hlen|]. split; [exact Hperm|].
  etrans; [exact Hout|reflexivity].
Defined.

(** Two launches with different initial generator states and different
    interleavings: rank 0 sends the same message in both. *)
Lemma worker_messages_deterministic_witness :
  ∃ t w t' w',
    exec 2 (init 2 entropy_a) sched_complete_2 = Some (t, w) ∧
    exec 2 (init 2 entropy_b) sched_interleaved_2 = Some (t', w') ∧
    sends_from 0 t = [Msg 0 1 (worker_data 0)] ∧
    sends_from 0 t' = sends_from 0 t.
Proof.
  eexists _, _, _, _.
  split; [reflexivity|]. split; [reflexivity|].
  edestruct (worker_messages_deterministic 2 entropy_a entropy_b
               sched_complete_2 sched_interleaved_2) as [_ Hfin];
    [reflexivity|reflexivity|].
  apply Hfin; [reflexivity|reflexivity|lia].
Defined.



(** The partial run of three processes again: the master is blocked, rank 1
    can move, and the run can be completed. *)
Lemma master_worker_always_completes_witness :
  exec 3 (init 3 entropy_a) sched_early_report_3 =
    Some (early_report_trace, early_report_world) ∧
  (∃ rank k e w1, step 3 early_report_world rank k = Some (e, w1)) ∧
  ∃ sched' t' w',
    exec 3 (init 3 entropy_a) (sched_early_report_3 ++ sched') =
      Some (early_report_trace ++ t', w') ∧
    finished w' = true.
Proof.
  split; [reflexivity|].
  destruct (master_worker_always_completes 3 entropy_a sched_early_report_3
              early_report_trace early_report_world) as [Hstep Hdone];
    [reflexivity|].
  split; [apply Hstep; reflexivity|exact Hdone].
Defined.

(** Three processes: fifteen steps, and the partial run of five steps is
    not complete. *)
Lemma master_worker_step_count_witness :
  1 ≤ 3 ∧
  ∃ t w,
    exec 3 (init 3 entropy_a) sched_complete_3 = Some (t, w) ∧
    finished w = true ∧ length t = 6 * 3 - 3.
Proof.
  split; [lia|]. eexists _, _. split; [reflexivity|]. split; [reflexivity|].
  edestruct (master_worker_step_count 3 entropy_a sched_complete_3) as [_ Hiff];
    [lia|reflexivity|].
  apply Hiff. reflexivity.
Defined.

(** In the complete run of three processes the master is the first to
    leave the barrier, at position 12 of the trace. *)
Lemma barrier_after_all_output_witness :
  1 ≤ 3 ∧
  ∃ t w,
    exec 3 (init 3 entropy_a) sched_complete_3 = Some (t, w) ∧
    t = take 12 t ++ EvLeaveBarrier 2 :: drop 13 t ∧
    length (recvs (take 12 t)) = 2 ∧
    ∀ e, e ∈ drop 13 t → ∃ r, e = EvLeaveBarrier r.
Proof.
  split; [lia|]. eexists _, _. split; [reflexivity|]. split; [reflexivity|].
  match goal with
  | |- length (recvs (take 12 ?t)) = _ ∧ _ =>
      edestruct (barrier_after_all_output 3 entropy_a sched_complete_3 t
                   (World [Finished; Finished; Finished] [])
                   (take 12 t) 2 (drop 13 t))
        as (_ & Hlen & _ & Hpost); [lia|reflexivity|reflexivity|]
  end.
  split; [exact Hlen|exact Hpost].
Defined.

(** Three processes: the master can report rank 1 before rank 0. *)
Lemma master_report_orders_witness :
  1 ≤ 3 ∧
  ∃ sched t w,
    exec 3 (init 3 entropy_a) sched = Some (t, w) ∧ finished w = true ∧
    reported_workers 3 t = [1; 0].
Proof.
  split; [lia|].
  apply (master_report_orders 3 entropy_a [1; 0]); [lia|].
  apply Permutation_swap.
Defined.

(** Example 1 with three processes, rank 1 trying first (it has to wait,
    so the schedule starts with rank 0). *)
Lemma send_py_object_runs_witness :
  1 ≤ 3 ∧
  ∃ t w,
    p2p_exec 3 (p2p_init send_py_object 3) [0; 0; 1; 0; 1] = Some (t, w) ∧
    p2p_done w = true ∧
    p2p_printed 1 t = [Received the_dict 1].
Proof.
  split; [lia|].
  destruct (send_py_object_runs 3) as [_ Hall]; [lia|].
  eexists _, _. split; [reflexivity|].
  edestruct (Hall ltac:(lia) [0; 0; 1; 0; 1]) as (_ & _ & _ & Hdone & _);
    [reflexivity|].
  split; [reflexivity|]. apply Hdone. reflexivity.
Defined.

(** Example 2 with three processes; rank 0 sends both arrays before rank 1
    receives the first. *)
Lemma send_np_array_runs_witness :
  1 ≤ 3 ∧
  ∃ t w,
    p2p_exec 3 (p2p_init (send_np_array junk_a junk_b) 3)
      [1; 0; 0; 0; 0; 0; 0; 1; 1; 1; 1; 1] = Some (t, w) ∧
    p2p_done w = true ∧
    p2p_printed 1 t =
      [Received (arange10 Int32) 1; Received (arange10 Float64) 1].
Proof.
  split; [lia|].
  destruct (send_np_array_runs junk_a junk_b 3) as [_ Hall]; [lia|].
  eexists _, _. split; [reflexivity|].
  edestruct (Hall ltac:(lia) [1; 0; 0; 0; 0; 0; 0; 1; 1; 1; 1; 1])
    as (_ & _ & _ & Hdone & _); [reflexivity|].
  split; [reflexivity|]. apply Hdone. reflexivity.
Defined.

(** The bounds on the complete run of three processes. *)
Lemma worker_message_bounds_witness :
  ∃ t w, exec 3 (init 3 entropy_a) sched_complete_3 = Some (t, w) ∧
    (∀ m, m ∈ sends t →
       length (msg_data m) < 100 ∧ ∀ x, x ∈ msg_data m → (0 ≤ x < 100)%Z) ∧
    (∀ r c, MasterLine r c ∈ printed (3 - 1) t → r < 3 - 1 ∧ c < 100).
Proof.
  eexists _, _. split; [reflexivity|].
  eapply (worker_message_bounds 3 entropy_a sched_complete_3).
  - intros g. by apply lcg_randint_range.
  - intros n g _. apply lcg_draws_length.
  - intros n g x. by apply lcg_draws_range.
  - lia.
  - reflexivity.
Defined.

#[local] Existing Instance toy_fs.
#[local] Existing Instance toy_training.


(** An empty first pass makes the worker fail at [loss.item()]; a single
    worker with two batches in the first pass trains on them and fails at
    [model.module]; four workers with two batches in every pass report
    the epochs 0 to 9. *)
Lemma train_func_outcome_witness :
  (train_func (H:=toy_training) 4 1 0 ([] :: replicate 9 [10; 20])).2 =
    Some UnboundLocalError ∧
  ((train_func (H:=toy_training) 1 0 0 ([5; 7] :: replicate 9 [1])).2 =
     Some AttributeError ∧
   log (train_func (H:=toy_training) 1 0 0 ([5; 7] :: replicate 9 [1])).1 =
     [Trained 5; Trained 7]) ∧
  (m_epoch ∘ fst) <$>
    reported (log (train_func (H:=toy_training) 4 0 0 (replicate 10 [10; 20])).1) =
    seq 0 10.
Proof.
  split_and!.
  - apply (train_func_outcome (H:=toy_training) 4 1 0 ([] :: replicate 9 [10; 20])).
    reflexivity.
  - apply (train_func_outcome (H:=toy_training) 1 0 0 ([5; 7] :: replicate 9 [1]));
      [discriminate|lia].
  - apply (train_func_outcome (H:=toy_training) 1 0 0 ([5; 7] :: replicate 9 [1]));
      [discriminate|lia].
  - apply (train_func_outcome (H:=toy_training) 4 0 0 (replicate 10 [10; 20]));
      [discriminate|lia].
Defined.

(** Four workers, a first pass of one batch, an empty second pass, then
    two batches per pass.  The third report comes after the three steps on
    the batches 5, 10 and 20: it carries the loss of the last of them and
    the parameters after the three. *)
Lemma train_func_reports_last_step_witness :
  let run := train_func (H:=toy_training) 4 0 0
               ([5] :: [] :: replicate 8 [10; 20]) in
  log run.1 =
    take 7 (log run.1) ++ Reported (Metrics 22 2) 3 :: drop 8 (log run.1) ∧
  trained (take 7 (log run.1)) = [5; 10; 20] ∧
  (replay (H:=toy_training) 0 [5; 10; 20]).2 = Some 22 ∧
  3 = save_checkpoint (replay (H:=toy_training) 0 [5; 10; 20]).1.
Proof.
  intros run.
  assert (log run.1 =
    take 7 (log run.1) ++ Reported (Metrics 22 2) 3 :: drop 8 (log run.1)) as Heq.
  { vm_compute. reflexivity. }
  assert (trained (take 7 (log run.1)) = [5; 10; 20]) as Htr.
  { vm_compute. reflexivity. }
  split; [exact Heq|]. split; [exact Htr|].
  pose proof (train_func_reports_last_step (H:=toy_training) 4 0 0
                ([5] :: [] :: replicate 8 [10; 20]) _ _ _ _ Heq) as Hx.
  rewrite Htr in Hx. exact Hx.
Defined.
